(** * DICOM anonymizer: tag-rewrite policy, record rewriter, directory walk

    A shallow embedding of [dicom_anonymizer.py] (the copy-to-mirror variant)
    and of [old/anon.py]'s [modify_single_dcm] (the in-place variant), with
    the facts the specification states about them.

    What the Python code leaves to libraries is modelled as follows.
    - A parsed data set ([pydicom.Dataset]) is a finite map from attribute
      keyword to value, both strings.  The code only asks [tag in ds] and
      assigns [ds[tag].value].
    - The assignment [ds[tag].value = v] may raise inside the codec.  The
      codec is a parameter: it either stores the value or rejects it and
      leaves some residue behind.
    - A path is the list of its components, as [pathlib.Path.parts] gives
      them; an absolute path starts with the component ["/"].
    - The input tree is walked as it stands when the walk starts: the output
      root is taken to lie outside the input tree.  Everything the run
      writes goes to a separate finite map from path to node. *)

From stdpp Require Import gmap strings list fin_maps.
From Stdlib Require Import ZArith Ascii.

Open Scope string_scope.
Open Scope list_scope.

Set Warnings "-register-all".

(* ===================================================================== *)
(** ** Python string primitives *)
(* ===================================================================== *)

Module PyStr.

(** [sub in s] for two strings: some tail of [s] starts with [sub]. *)
Fixpoint contains (sub s : string) : bool :=
  String.prefix sub s ||
  match s with
  | EmptyString => false
  | String _ rest => contains sub rest
  end.

(** [s.endswith(suf)]: [s] is [suf], or the tail of [s] ends with [suf]. *)
Fixpoint endswith (s suf : string) : bool :=
  String.eqb s suf ||
  match s with
  | EmptyString => false
  | String _ rest => endswith rest suf
  end.

(** [str.lower] on one character.  File names are strings of 8-bit
    characters; the letters A-Z are folded, everything else is kept. *)
Definition lower_char (c : ascii) : ascii :=
  let n := nat_of_ascii c in
  if (65 <=? n)%nat && (n <=? 90)%nat then ascii_of_nat (n + 32) else c.

Fixpoint lower (s : string) : string :=
  match s with
  | EmptyString => EmptyString
  | String c rest => String (lower_char c) (lower rest)
  end.

(** [x in l] for a list of strings. *)
Definition mem (x : string) (l : list string) : bool :=
  existsb (String.eqb x) l.

(** [k in d] and [d[k]] for a dict written as a literal. *)
Fixpoint dict_get (d : list (string * string)) (k : string) : option string :=
  match d with
  | [] => None
  | (k', v) :: rest => if String.eqb k k' then Some v else dict_get rest k
  end.

End PyStr.

(* ===================================================================== *)
(** ** The policy tables of dicom_anonymizer.py *)
(* ===================================================================== *)

Definition DEFAULT_PATIENT_ID : string := "ANON_PATIENT_001".

Definition FIXED_VALUES : list (string * string) :=
  [ ("PatientBirthDate", "19000101");
    ("PatientSex", "O");
    ("PatientAge", "000Y");
    ("StudyDate", "20000101");
    ("SeriesDate", "20000101");
    ("AcquisitionDate", "20000101");
    ("ContentDate", "20000101");
    ("StudyTime", "120000");
    ("SeriesTime", "120000");
    ("AcquisitionTime", "120000");
    ("ContentTime", "120000") ].

Definition TAGS_TO_ANONYMIZE : list string :=
  [ "PatientName"; "PatientID"; "PatientBirthDate"; "PatientSex"; "PatientAge";
    "PatientAddress"; "PatientMotherBirthName"; "PatientTelephoneNumbers";
    "InstitutionName"; "InstitutionAddress"; "ReferringPhysicianName";
    "PerformingPhysicianName"; "OperatorsName"; "PhysiciansOfRecord";
    "StudyDescription"; "SeriesDescription"; "StudyComments"; "ImageComments";
    "StudyDate"; "SeriesDate"; "AcquisitionDate"; "ContentDate";
    "StudyTime"; "SeriesTime"; "AcquisitionTime"; "ContentTime" ].

Definition TAGS_TO_EMPTY : list string :=
  [ "PatientAddress"; "PatientTelephoneNumbers"; "InstitutionAddress";
    "StudyComments"; "ImageComments"; "PatientMotherBirthName" ].

(** The value the [if]/[elif] chain of [anonymize_dicom_file] assigns to
    [ds[tag].value]. *)
Definition new_value (tag patient_id : string) : string :=
  if PyStr.mem tag TAGS_TO_EMPTY then ""
  else if PyStr.mem tag ["PatientName"; "PatientID"] then patient_id
  else match PyStr.dict_get FIXED_VALUES tag with
       | Some v => v
       | None =>
           if PyStr.contains "Description" tag || PyStr.contains "Name" tag
           then "ANONYMIZED"
           else patient_id
       end.

(* ===================================================================== *)
(** ** Data sets and the codec *)
(* ===================================================================== *)

(** What [ds[tag].value = v] does: the codec stores [v], or it raises and
    the element is left holding [residue]. *)
Inductive assign_outcome : Type :=
  | Stored
  | Rejected (residue : string).

Abbreviation dataset := (gmap string string).

Definition codec_t : Type := string -> string -> string -> assign_outcome.

(** [ds[tag].value = v] inside [try: ... except Exception: continue]. *)
Definition assign (codec : codec_t) (ds : dataset) (tag v : string) : dataset :=
  match ds !! tag with
  | Some old =>
      match codec tag old v with
      | Stored => <[tag := v]> ds
      | Rejected residue => <[tag := residue]> ds
      end
  | None => ds
  end.

(** One turn of [for tag in TAGS_TO_ANONYMIZE]. *)
Definition anonymize_tag (codec : codec_t) (patient_id : string)
    (ds : dataset) (tag : string) : dataset :=
  match ds !! tag with
  | Some _ => assign codec ds tag (new_value tag patient_id)
  | None => ds
  end.

(** The whole loop over the policy table. *)
Definition anonymize_tags (codec : codec_t) (patient_id : string)
    (ds : dataset) : dataset :=
  foldl (anonymize_tag codec patient_id) ds TAGS_TO_ANONYMIZE.

(* ===================================================================== *)
(** ** Files, exceptions and the environment *)
(* ===================================================================== *)

Abbreviation path := (list string).

(** What a file holds: a data set the codec can parse, or other bytes. *)
Inductive content : Type :=
  | Dicom (ds : dataset)
  | Blob (bytes : string).

Inductive node : Type :=
  | Directory
  | Regular (c : content).

(** The output side of the file system. *)
Abbreviation disk := (gmap (list string) node).

(** The input tree, as [os.walk] finds it. *)
Inductive tree : Type :=
  | File (c : content)
  | Folder (entries : list (string * tree)).

Inductive exn : Type :=
  | Exception (what : string)
  | KeyboardInterrupt
  | SystemExit (code : Z).

Inductive completion (A : Type) : Type :=
  | Returned (a : A)
  | Raised (e : exn).
Arguments Returned {A} a.
Arguments Raised {A} e.

(** Everything the run does not decide itself. *)
Record environment : Type := {
  codec : codec_t;
  (** what lies at a path on the input side; [None] when nothing exists *)
  mount : path -> option tree;
  (** [Path(s)] for a command-line string *)
  path_of_string : string -> path;
  (** the system refuses to read this file *)
  read_denied : path -> bool;
  (** the system refuses to create or write this path *)
  write_denied : path -> bool;
  (** the user presses Ctrl-C when the walk reaches this input file *)
  interrupted : path -> bool
}.

(** A computation that reads and writes the disk and may raise. *)
Definition io (A : Type) : Type := disk -> completion A * disk.

Definition ret {A} (a : A) : io A := fun d => (Returned a, d).

Definition raise {A} (e : exn) : io A := fun d => (Raised e, d).

Definition bind {A B} (m : io A) (k : A -> io B) : io B :=
  fun d =>
    match m d with
    | (Returned a, d') => k a d'
    | (Raised e, d') => (Raised e, d')
    end.

Notation "'let!' x ':=' m 'in' k" := (bind m (fun x => k))
  (at level 10, x pattern, m at level 100, k at level 200,
   format "'[v' 'let!'  x  ':='  m  'in' '/' k ']'").

(** [try: body except Exception: handler].  [KeyboardInterrupt] and
    [SystemExit] are not subclasses of [Exception] and pass through. *)
Definition try_except {A} (body : io A) (handler : string -> io A) : io A :=
  fun d =>
    match body d with
    | (Raised (Exception what), d') => handler what d'
    | r => r
    end.

(** [for x in l: s = body x s]. *)
Fixpoint for_each {A S} (body : A -> S -> io S) (l : list A) (s : S) : io S :=
  match l with
  | [] => ret s
  | x :: l' => let! s' := body x s in for_each body l' s'
  end.

(* ===================================================================== *)
(** ** File-system calls *)
(* ===================================================================== *)

(** [os.path.isdir]: the current directory [[]] and the root [["/"]] always
    exist. *)
Definition is_dir (d : disk) (p : path) : bool :=
  match p with
  | [] => true
  | _ =>
      if bool_decide (p = ["/"]) then true
      else match d !! p with
           | Some Directory => true
           | _ => false
           end
  end.

(** [os.path.exists]. *)
Definition path_exists (d : disk) (p : path) : bool :=
  is_dir d p || bool_decide (is_Some (d !! p)).

(** [Path.parent] and [os.path.dirname] on the components. *)
Definition parent (p : path) : path := removelast p.

(** Create [made/todo[0]], [made/todo[0]/todo[1]], ... where missing. *)
Fixpoint mkdirs_from (env : environment) (made : path) (todo : list string)
    : io unit :=
  match todo with
  | [] => ret tt
  | name :: rest =>
      let p := made ++ [name] in
      fun d =>
        if is_dir d p then mkdirs_from env p rest d
        else match d !! p with
             | Some _ => (Raised (Exception "FileExistsError"), d)
             | None =>
                 if write_denied env p
                 then (Raised (Exception "PermissionError"), d)
                 else mkdirs_from env p rest (<[p := Directory]> d)
             end
  end.

(** [os.makedirs(name, exist_ok=True)].  The empty name, which
    [os.path.dirname] returns for a bare file name, raises. *)
Definition os_makedirs (env : environment) (p : path) : io unit :=
  match p with
  | [] => raise (Exception "FileNotFoundError")
  | _ => mkdirs_from env [] p
  end.

(** [Path.mkdir(parents=True, exist_ok=True)]; [Path('.')] exists. *)
Definition Path_mkdir (env : environment) (p : path) : io unit :=
  mkdirs_from env [] p.

(** Open [p] for writing and store [c]. *)
Definition write_file (env : environment) (p : path) (c : content) : io unit :=
  fun d =>
    if write_denied env p then (Raised (Exception "PermissionError"), d)
    else if is_dir d p then (Raised (Exception "IsADirectoryError"), d)
    else if is_dir d (parent p) then (Returned tt, <[p := Regular c]> d)
    else (Raised (Exception "FileNotFoundError"), d).

(** [pydicom.dcmread(input_path)], [src] being what the file holds. *)
Definition dcmread (env : environment) (input_path : path) (src : content)
    : io dataset :=
  if read_denied env input_path then raise (Exception "PermissionError")
  else match src with
       | Dicom ds => ret ds
       | Blob _ => raise (Exception "InvalidDicomError")
       end.

(** [ds.save_as(output_path)]. *)
Definition save_as (env : environment) (ds : dataset) (output_path : path)
    : io unit :=
  write_file env output_path (Dicom ds).

(** [shutil.copy2(src, dst)]: when [dst] is a directory the copy goes
    inside it, under the base name of [src]. *)
Definition shutil_copy2 (env : environment) (src_path : path) (name : string)
    (src : content) (dst : path) : io unit :=
  if read_denied env src_path then raise (Exception "PermissionError")
  else fun d =>
    let target := if is_dir d dst then dst ++ [name] else dst in
    write_file env target src d.

(* ===================================================================== *)
(** ** anonymize_dicom_file *)
(* ===================================================================== *)

Definition anonymize_dicom_file (env : environment) (input_path : path)
    (src : content) (output_path : path) (patient_id : string) : io bool :=
  try_except
    (let! ds := dcmread env input_path src in
     let ds' := anonymize_tags (codec env) patient_id ds in
     let! _ := os_makedirs env (parent output_path) in
     let! _ := save_as env ds' output_path in
     ret true)
    (fun _ => ret false).

(* ===================================================================== *)
(** ** anonymize_directory *)
(* ===================================================================== *)

Record stats : Type := {
  total_files : nat;
  anonymized : nat;
  failed : nat;
  skipped : nat
}.

Definition no_stats : stats :=
  {| total_files := 0; anonymized := 0; failed := 0; skipped := 0 |}.

Definition count_file (s : stats) : stats :=
  {| total_files := total_files s + 1; anonymized := anonymized s;
     failed := failed s; skipped := skipped s |}.

Definition count_anonymized (s : stats) : stats :=
  {| total_files := total_files s; anonymized := anonymized s + 1;
     failed := failed s; skipped := skipped s |}.

Definition count_failed (s : stats) : stats :=
  {| total_files := total_files s; anonymized := anonymized s;
     failed := failed s + 1; skipped := skipped s |}.

Definition count_skipped (s : stats) : stats :=
  {| total_files := total_files s; anonymized := anonymized s;
     failed := failed s; skipped := skipped s + 1 |}.

(** [filename.lower().endswith('.dcm') or not '.' in filename]. *)
Definition is_dicom_name (filename : string) : bool :=
  PyStr.endswith (PyStr.lower filename) ".dcm"
  || negb (PyStr.contains "." filename).

(** [p.relative_to(base)]; [None] stands for the [ValueError]. *)
Fixpoint relative_to (p base : path) {struct base} : option path :=
  match base with
  | [] => Some p
  | b :: base' =>
      match p with
      | [] => None
      | x :: p' => if String.eqb b x then relative_to p' base' else None
      end
  end.

(** The files of one directory, in listing order. *)
Fixpoint files_of (entries : list (string * tree)) : list (string * content) :=
  match entries with
  | [] => []
  | (name, File c) :: rest => (name, c) :: files_of rest
  | (_, Folder _) :: rest => files_of rest
  end.

(** [os.walk(top)], top-down: a directory with its files, then each of its
    sub-directories in turn.  Walking something that is not a directory
    yields nothing. *)
Fixpoint os_walk (root : path) (t : tree)
    : list (path * list (string * content)) :=
  match t with
  | File _ => []
  | Folder entries =>
      (root, files_of entries) ::
      (fix subdirs (es : list (string * tree)) :=
         match es with
         | [] => []
         | (name, sub) :: es' => os_walk (root ++ [name]) sub ++ subdirs es'
         end) entries
  end.

(** The body of [for filename in files]. *)
Definition visit_file (env : environment) (input_path output_path : path)
    (patient_id : string) (root : path) (entry : string * content)
    (st : stats) : io stats :=
  let '(filename, src) := entry in
  let input_file := root ++ [filename] in
  if interrupted env input_file then raise KeyboardInterrupt
  else
    let st := count_file st in
    match relative_to input_file input_path with
    | None => raise (Exception "ValueError")
    | Some rel_path =>
        let output_file := output_path ++ rel_path in
        if is_dicom_name filename then
          let! ok :=
            anonymize_dicom_file env input_file src output_file patient_id in
          if ok : bool then ret (count_anonymized st)
          else ret (count_failed st)
        else
          let! _ := Path_mkdir env (parent output_file) in
          let! _ := shutil_copy2 env input_file filename src output_file in
          ret (count_skipped st)
    end.

(** The body of [for root, dirs, files in os.walk(input_dir)]. *)
Definition visit_dir (env : environment) (input_path output_path : path)
    (patient_id : string) (listing : path * list (string * content))
    (st : stats) : io stats :=
  for_each (visit_file env input_path output_path patient_id listing.1)
           listing.2 st.

Definition anonymize_directory (env : environment) (input_dir output_dir : path)
    (patient_id : string) : io (option stats) :=
  match mount env input_dir with
  | None => ret None
  | Some t =>
      let! _ := Path_mkdir env output_dir in
      let! st :=
        for_each (visit_dir env input_dir output_dir patient_id)
                 (os_walk input_dir t) no_stats in
      ret (Some st)
  end.

(* ===================================================================== *)
(** ** main *)
(* ===================================================================== *)

Definition DEFAULT_INPUT_DIR : string :=
  "C:\Users\lukass\Desktop\personal\github\tools\dcm".
Definition DEFAULT_OUTPUT_DIR : string :=
  "C:\Users\lukass\Desktop\personal\github\tools\dcm_anonymized".

Record arguments : Type := {
  arg_input : option string;
  arg_output : option string;
  arg_patient_id : option string;
  arg_verbose : bool
}.

(** [a or default]: [None] and the empty string are falsy. *)
Definition or_default (a : option string) (default : string) : string :=
  match a with
  | Some s => if String.eqb s "" then default else s
  | None => default
  end.

Definition sys_exit {A} (code : Z) : io A := raise (SystemExit code).

(** [print_summary] only logs. *)
Definition print_summary (st : option stats) : io unit := ret tt.

Definition main (env : environment) (args : arguments) : io unit :=
  let input_dir := or_default (arg_input args) DEFAULT_INPUT_DIR in
  let output_dir := or_default (arg_output args) DEFAULT_OUTPUT_DIR in
  let patient_id := or_default (arg_patient_id args) DEFAULT_PATIENT_ID in
  fun d =>
    match
      (let! st := anonymize_directory env (path_of_string env input_dir)
                    (path_of_string env output_dir) patient_id in
       let! _ := print_summary st in
       match st with
       | Some s => if (failed s =? 0)%nat then sys_exit 0%Z else sys_exit 1%Z
       | None => sys_exit 2%Z
       end) d
    with
    | (Raised KeyboardInterrupt, d') => sys_exit 130%Z d'
    | (Raised (Exception _), d') => sys_exit 1%Z d'
    | r => r
    end.

(** The status the interpreter exits with. *)
Definition exit_status (r : completion unit) : Z :=
  match r with
  | Returned _ => 0%Z
  | Raised (SystemExit code) => code
  | Raised KeyboardInterrupt => 130%Z
  | Raised (Exception _) => 1%Z
  end.

(* ===================================================================== *)
(** ** old/anon.py: the in-place variant *)
(* ===================================================================== *)

Module Old.

Definition DICOM_TAGS_TO_ANONYMIZE : list string :=
  [ "PatientName"; "PatientID"; "PatientBirthDate"; "PatientSex";
    "PatientAge"; "PatientAddress"; "PatientMotherBirthName";
    "PatientTelephoneNumbers"; "PatientWeight"; "PatientHeight";
    "EthnicGroup"; "Occupation";
    "InstitutionName"; "InstitutionAddress"; "ReferringPhysicianName";
    "ReadingPhysicianName"; "PerformingPhysicianName"; "OperatorsName";
    "PhysiciansOfRecord"; "RequestingPhysician";
    "StudyDescription"; "SeriesDescription"; "StudyComments";
    "ImageComments"; "RequestedProcedureComments";
    "ClinicalTrialSubjectID"; "ClinicalTrialSubjectReadingID";
    "ClinicalTrialProtocolName"; "ClinicalTrialCoordinatingCenterName";
    "ClinicalTrialSponsorName"; "DeviceSerialNumber";
    "StudyDate"; "SeriesDate"; "AcquisitionDate"; "ContentDate";
    "StudyTime"; "SeriesTime"; "AcquisitionTime"; "ContentTime" ].

Definition TAGS_TO_EMPTY : list string :=
  [ "PatientAddress"; "PatientTelephoneNumbers"; "InstitutionAddress";
    "StudyComments"; "ImageComments"; "RequestedProcedureComments" ].

(** The value generators draw on the clock and on [random]; each takes
    the generator state and hands back the next one. *)
Record randomness : Type := {
  rng : Type;
  generate_random_birthdate : rng -> string * rng;
  generate_random_date : rng -> string * rng;
  generate_random_time : rng -> string * rng;
  random_sex : rng -> string * rng;
  random_age : rng -> string * rng
}.

(** Files are addressed by path strings: the code builds the backup
    path as [fdcm + '.backup']. *)
Record system : Type := {
  sys_codec : codec_t;
  sys_random : randomness;
  sys_read_denied : string -> bool;
  sys_write_denied : string -> bool
}.

Abbreviation files := (gmap string content).

(** The right-hand side chosen by the [if]/[elif] chain. *)
Definition replacement (rnd : randomness) (tag newvalue : string)
    (g : rng rnd) : string * rng rnd :=
  if PyStr.mem tag TAGS_TO_EMPTY then ("", g)
  else if PyStr.contains "Date" tag then
    if String.eqb tag "PatientBirthDate"
    then generate_random_birthdate rnd g
    else generate_random_date rnd g
  else if PyStr.contains "Time" tag then generate_random_time rnd g
  else if String.eqb tag "PatientSex" then random_sex rnd g
  else if String.eqb tag "PatientAge" then random_age rnd g
  else (newvalue, g).

(** One turn of [for tag in tags]: the data set, the [modified] flag and
    the generator state. *)
Definition modify_one (sys : system) (newvalue : string)
    (st : dataset * bool * rng (sys_random sys)) (tag : string)
    : dataset * bool * rng (sys_random sys) :=
  let '(ds, modified, g) := st in
  match ds !! tag with
  | None => st
  | Some old_value =>
      let '(v, g') := replacement (sys_random sys) tag newvalue g in
      match sys_codec sys tag old_value v with
      | Stored => (<[tag := v]> ds, true, g')
      | Rejected residue => (<[tag := residue]> ds, modified, g')
      end
  end.

Definition modify_single_dcm (sys : system) (fdcm : string)
    (tags : list string) (newvalue : string)
    (fs : files) (g : rng (sys_random sys))
    : bool * files * rng (sys_random sys) :=
  if sys_read_denied sys fdcm then (false, fs, g)
  else
    match fs !! fdcm with
    | Some (Dicom ds) =>
        let '(ds', modified, g') :=
          foldl (modify_one sys newvalue) (ds, false, g) tags in
        if modified then
          let backup_path := fdcm +:+ ".backup" in
          if sys_write_denied sys backup_path then (false, fs, g')
          else
            let fs1 := <[backup_path := Dicom ds]> fs in
            if sys_write_denied sys fdcm then (false, fs1, g')
            else (true, <[fdcm := Dicom ds']> fs1, g')
        else (false, fs, g')
    | _ => (false, fs, g)
    end.

End Old.

(* ===================================================================== *)
(** ** What the specification says, in its own words *)
(* ===================================================================== *)

(** [sub] occurs somewhere in [s]. *)
Definition has_substring (sub s : string) : Prop :=
  exists pre post, s = pre +:+ sub +:+ post.

Inductive rule : Type :=
  | Empty
  | UseSuppliedIdentifier
  | FixedValue (payload : string).

Definition rule_value (r : rule) (identifier : string) : string :=
  match r with
  | Empty => ""
  | UseSuppliedIdentifier => identifier
  | FixedValue payload => payload
  end.

Definition is_identity (tag : string) : Prop :=
  tag = "PatientName" \/ tag = "PatientID".

Definition in_fixed_map (tag : string) : Prop :=
  exists c, (tag, c) ∈ FIXED_VALUES.

Definition descriptive (tag : string) : Prop :=
  has_substring "Description" tag \/ has_substring "Name" tag.

(** The five steps of the resolution order, each guarded by the failure of
    the steps before it. *)
Inductive resolves (tag : string) : rule -> Prop :=
  | resolve_empty :
      tag ∈ TAGS_TO_EMPTY ->
      resolves tag Empty
  | resolve_identity :
      tag ∉ TAGS_TO_EMPTY -> is_identity tag ->
      resolves tag UseSuppliedIdentifier
  | resolve_fixed c :
      tag ∉ TAGS_TO_EMPTY -> ~ is_identity tag -> (tag, c) ∈ FIXED_VALUES ->
      resolves tag (FixedValue c)
  | resolve_descriptive :
      tag ∉ TAGS_TO_EMPTY -> ~ is_identity tag -> ~ in_fixed_map tag ->
      descriptive tag ->
      resolves tag (FixedValue "ANONYMIZED")
  | resolve_default :
      tag ∉ TAGS_TO_EMPTY -> ~ is_identity tag -> ~ in_fixed_map tag ->
      ~ descriptive tag ->
      resolves tag UseSuppliedIdentifier.

(** The date and time constants of fixed mode. *)
Definition documented_date_time : list (string * string) :=
  [ ("PatientBirthDate", "19000101");
    ("StudyDate", "20000101"); ("SeriesDate", "20000101");
    ("AcquisitionDate", "20000101"); ("ContentDate", "20000101");
    ("StudyTime", "120000"); ("SeriesTime", "120000");
    ("AcquisitionTime", "120000"); ("ContentTime", "120000") ].

(** A file name ends with the DICOM extension, in any letter case. *)
Definition has_dcm_extension (filename : string) : Prop :=
  exists stem d c m,
    filename = stem +:+ String "." (String d (String c (String m "")))
    /\ (d = "d" \/ d = "D")%char
    /\ (c = "c" \/ c = "C")%char
    /\ (m = "m" \/ m = "M")%char.

Definition has_no_dot (filename : string) : Prop :=
  ~ In "."%char (String.list_ascii_of_string filename).

(** A file lies at a relative path below the root of a tree. *)
Inductive file_at : tree -> path -> content -> Prop :=
  | file_here entries name c :
      (name, File c) ∈ entries ->
      file_at (Folder entries) [name] c
  | file_below entries name sub p c :
      (name, sub) ∈ entries -> file_at sub p c ->
      file_at (Folder entries) (name :: p) c.

(** Within a directory a name is used once. *)
Inductive wf_tree : tree -> Prop :=
  | wf_file c : wf_tree (File c)
  | wf_folder entries :
      NoDup entries.*1 ->
      (forall name sub, (name, sub) ∈ entries -> wf_tree sub) ->
      wf_tree (Folder entries).


(** A computation that keeps a property of the disk, however it ends. *)
Definition keeps {A : Type} (I : disk -> Prop) (m : io A) : Prop :=
  forall d r d', m d = (r, d') -> I d -> I d'.

(** A codec whose verdict depends on the attribute and the new value only,
    and which leaves a rejected element as it was. *)
Definition settled (c : codec_t) : Prop :=
  forall tag v,
    (forall old', c tag old' v = Stored)
    \/ (forall old', c tag old' v = Rejected old').

(** The persist step of the rewriter: create the missing parent
    directories, then write the record. *)
Definition persist (env : environment) (ds : dataset) (output_path : path)
    : io unit :=
  let! _ := os_makedirs env (parent output_path) in
  save_as env ds output_path.

Definition set_codec (c : codec_t) (env : environment) : environment :=
  {| codec := c; mount := mount env; path_of_string := path_of_string env;
     read_denied := read_denied env; write_denied := write_denied env;
     interrupted := interrupted env |}.

(** What an element holds after [ds[tag].value = v] was tried on it. *)
Definition left_by (c : codec_t) (tag old v : string) : string :=
  match c tag old v with
  | Stored => v
  | Rejected residue => residue
  end.

(** The number of files [os.walk] lists. *)
Definition listed_files (l : list (path * list (string * content))) : nat :=
  sum_list (map (fun x => length x.2) l).

(** A computation that never calls [sys.exit] and never removes anything
    from the disk. *)
Definition tame {A} (m : io A) : Prop :=
  forall d r d',
    m d = (r, d') ->
    (forall code, r <> Raised (SystemExit code))
    /\ (forall q, path_exists d q = true -> path_exists d' q = true).

(* ===================================================================== *)
(** ** Sample inputs *)
(* ===================================================================== *)

Module Sample.

(** A codec that refuses every new value for PatientSex. *)
Definition picky_codec : codec_t :=
  fun tag old _ =>
    if String.eqb tag "PatientSex" then Rejected old else Stored.

Definition patient : dataset :=
  {[ "PatientName" := "Doe^Jane"; "PatientSex" := "F";
     "StudyDate" := "20240610"; "Modality" := "CT" ]}.

Definition study : tree :=
  Folder [ ("scan.dcm", File (Dicom patient));
           ("notes.txt", File (Blob "see report"));
           ("series1", Folder [ ("IMG001", File (Dicom patient)) ]) ].

(** The study lies at [in]; nothing is denied and nobody interrupts. *)
Definition clinic : environment :=
  {| codec := picky_codec;
     mount := fun p => if bool_decide (p = ["in"]) then Some study else None;
     path_of_string := fun s => [s];
     read_denied := fun _ => false;
     write_denied := fun _ => false;
     interrupted := fun _ => false |}.

Definition command_line : arguments :=
  {| arg_input := Some "in"; arg_output := Some "out";
     arg_patient_id := Some "ANON_7"; arg_verbose := false |}.

Definition wrong_command_line : arguments :=
  {| arg_input := Some "nowhere"; arg_output := Some "out";
     arg_patient_id := None; arg_verbose := false |}.

Definition dice : Old.randomness :=
  {| Old.rng := nat;
     Old.generate_random_birthdate := fun n => ("19700101", S n);
     Old.generate_random_date := fun n => ("20240101", S n);
     Old.generate_random_time := fun n => ("101500", S n);
     Old.random_sex := fun n => ("O", S n);
     Old.random_age := fun n => ("42Y", S n) |}.

Definition workstation : Old.system :=
  {| Old.sys_codec := fun _ _ _ => Stored;
     Old.sys_random := dice;
     Old.sys_read_denied := fun _ => false;
     Old.sys_write_denied := fun _ => false |}.

Definition phantom : dataset :=
  {[ "Modality" := "CT"; "Rows" := "512" ]}.

End Sample.

(* ===================================================================== *)
(** ** Further notions used to state what the walk does *)
(* ===================================================================== *)

(** The number of entries of a directory listing whose name passes a test. *)
Fixpoint count_names (f : string -> bool) (files : list (string * content))
    : nat :=
  match files with
  | [] => 0
  | (name, _) :: rest => (if f name then 1 else 0) + count_names f rest
  end.

(** The number of listed files that are DICOM-like, and that are opaque. *)
Definition listed_dicom (l : list (path * list (string * content))) : nat :=
  sum_list (map (fun x => count_names is_dicom_name x.2) l).

Definition listed_opaque (l : list (path * list (string * content))) : nat :=
  sum_list (map (fun x => count_names (fun n => negb (is_dicom_name n)) x.2) l).

(** A computation that, when it raises, raises an [Exception]. *)
Definition only_exceptions {A : Type} (m : io A) : Prop :=
  forall d r d',
    m d = (r, d') ->
    forall e, r = Raised e -> exists what, e = Exception what.

(** What the walk writes for a file: the rewritten record under a
    DICOM-like name, the file as it is under any other name. *)
Definition mirror_of (c : codec_t) (patient_id : string) (name : string)
    (src : content) : content :=
  if is_dicom_name name then
    match src with
    | Dicom ds => Dicom (anonymize_tags c patient_id ds)
    | Blob b => Blob b
    end
  else src.

(** How a path is found after a computation, compared with [d0]: as it
    was, or newly made a directory on the way to [target]. *)
Definition touched_only_towards (d0 : disk) (target q : path) (d : disk)
    : Prop :=
  d !! q = d0 !! q
  \/ (d0 !! q = None /\ d !! q = Some Directory /\ q `prefix_of` target).

(* ===================================================================== *)
(** ** More sample inputs *)
(* ===================================================================== *)

Module Cases.

(** The clinic of [Sample], with the notes unreadable. *)
Definition locked_notes : environment :=
  {| codec := codec Sample.clinic; mount := mount Sample.clinic;
     path_of_string := path_of_string Sample.clinic;
     read_denied := fun p => bool_decide (p = ["in"; "notes.txt"]);
     write_denied := write_denied Sample.clinic;
     interrupted := interrupted Sample.clinic |}.

(** The input path names a single regular file. *)
Definition single_file : environment :=
  {| codec := codec Sample.clinic;
     mount := fun p => if bool_decide (p = ["in"])
                       then Some (File (Dicom Sample.patient)) else None;
     path_of_string := path_of_string Sample.clinic;
     read_denied := read_denied Sample.clinic;
     write_denied := write_denied Sample.clinic;
     interrupted := interrupted Sample.clinic |}.

(** A study that comes with a README. *)
Definition documented_study : tree :=
  Folder [ ("README", File (Blob "how to read this study"));
           ("scan.dcm", File (Dicom Sample.patient)) ].

Definition documented : environment :=
  {| codec := codec Sample.clinic;
     mount := fun p => if bool_decide (p = ["in"])
                       then Some documented_study else None;
     path_of_string := path_of_string Sample.clinic;
     read_denied := read_denied Sample.clinic;
     write_denied := write_denied Sample.clinic;
     interrupted := interrupted Sample.clinic |}.

(** A disk that already holds something next to the output root. *)
Definition busy_disk : disk :=
  {[ ["archive"] := Directory;
     ["archive"; "old.dcm"] := Regular (Dicom Sample.patient) ]}.


End Cases.

(* ===================================================================== *)
(** ** old/anon.py: the callers of modify_single_dcm *)
(* ===================================================================== *)

Module InPlace.

(** [generate_anonymous_id(prefix)] reads the clock and draws from
    [random]: it takes the generator state and hands back the next one. *)
Record id_source (rnd : Old.randomness) : Type := {
  generate_anonymous_id : string -> Old.rng rnd -> string * Old.rng rnd
}.
Arguments generate_anonymous_id {rnd} _ _ _.

(** What the directory functions ask of the platform: [os.walk(top)] as
    the list of its [(root, files)] pairs, [None] when [os.path.exists]
    says the path is missing, and [os.path.join]. *)
Record platform : Type := {
  os_walk : string -> option (list (string * list string));
  os_path_join : string -> string -> string
}.

(** [validate_dicom_file]: the file parses and has both a PatientID and a
    StudyInstanceUID. *)
Definition validate_dicom_file (sys : Old.system) (file_path : string)
    (fs : gmap string content) : bool :=
  if Old.sys_read_denied sys file_path then false
  else
    match fs !! file_path with
    | Some (Dicom ds) =>
        if negb (bool_decide (is_Some (ds !! "PatientID")))
           || negb (bool_decide (is_Some (ds !! "StudyInstanceUID")))
        then false
        else true
    | _ => false
    end.

(** [anonymize_dicom_file(file_path, patient_id_prefix)] of old/anon.py. *)
Definition anonymize_dicom_file (sys : Old.system)
    (ids : id_source (Old.sys_random sys)) (file_path prefix : string)
    (fs : gmap string content) (g : Old.rng (Old.sys_random sys))
    : bool * gmap string content * Old.rng (Old.sys_random sys) :=
  if negb (validate_dicom_file sys file_path fs) then (false, fs, g)
  else
    let '(patient_id, g1) := generate_anonymous_id ids prefix g in
    Old.modify_single_dcm sys file_path Old.DICOM_TAGS_TO_ANONYMIZE
      patient_id fs g1.

(** The body of [for file in files] of [modify_patientids]; [file.endswith]
    is case-sensitive here. *)
Definition modify_listed (sys : Old.system) (plat : platform)
    (tags : list string) (new_patientid : string) (root : string)
    (st : nat * gmap string content * Old.rng (Old.sys_random sys))
    (file : string)
    : nat * gmap string content * Old.rng (Old.sys_random sys) :=
  let '(total_modified, fs, g) := st in
  if PyStr.endswith file ".dcm" then
    let file_path := os_path_join plat root file in
    if validate_dicom_file sys file_path fs then
      let '(ok, fs', g') :=
        Old.modify_single_dcm sys file_path tags new_patientid fs g in
      if ok : bool then (total_modified + 1, fs', g')
      else (total_modified, fs', g')
    else st
  else st.

(** [modify_patientids(directory_path, new_patientid)]. *)
Definition modify_patientids (sys : Old.system)
    (ids : id_source (Old.sys_random sys)) (plat : platform)
    (directory_path : string) (new_patientid : option string)
    (fs : gmap string content) (g : Old.rng (Old.sys_random sys))
    : nat * gmap string content * Old.rng (Old.sys_random sys) :=
  match os_walk plat directory_path with
  | None => (0, fs, g)
  | Some listing =>
      let '(new_patientid, g1) :=
        match new_patientid with
        | None => generate_anonymous_id ids "DIR" g
        | Some given => (given, g)
        end in
      foldl
        (fun st (x : string * list string) =>
           foldl (modify_listed sys plat Old.DICOM_TAGS_TO_ANONYMIZE
                    new_patientid x.1) st x.2)
        (0, fs, g1) listing
  end.

(** The number of listed names that end with ".dcm". *)
Definition listed_dcm (listing : list (string * list string)) : nat :=
  sum_list (map (fun x : string * list string =>
                   length (List.filter (fun f => PyStr.endswith f ".dcm") x.2))
                listing).

(** The paths [modify_patientids] may write: a listed ".dcm" file and its
    backup sibling. *)
Definition in_reach (plat : platform) (listing : list (string * list string))
    (q : string) : Prop :=
  exists root files file,
    (root, files) ∈ listing /\ file ∈ files
    /\ PyStr.endswith file ".dcm" = true
    /\ (q = os_path_join plat root file
        \/ q = os_path_join plat root file +:+ ".backup").

End InPlace.

(** Sample inputs for the in-place variant. *)
Module Ward.

Definition examined : dataset :=
  {[ "PatientID" := "4711"; "PatientName" := "Doe^Jane";
     "StudyInstanceUID" := "1.2.840.1"; "StudyDate" := "20240610";
     "Modality" := "CT" ]}.

Definition shelf : gmap string content :=
  {[ "ct/1.dcm" := Dicom examined; "ct/notes.txt" := Blob "see report" ]}.

Definition ids : InPlace.id_source Sample.dice :=
  InPlace.Build_id_source Sample.dice
    (fun prefix (n : nat) => (prefix +:+ "_20240610_AAAAAAAA", S n)).

Definition posix : InPlace.platform :=
  {| InPlace.os_walk :=
       fun top => if String.eqb top "ct"
                  then Some [("ct", ["1.dcm"; "notes.txt"; "2.DCM"])]
                  else None;
     InPlace.os_path_join := fun a b => a +:+ "/" +:+ b |}.

(** A directory whose only image carries an upper-case extension. *)
Definition upper_case : InPlace.platform :=
  {| InPlace.os_walk :=
       fun top => if String.eqb top "ct"
                  then Some [("ct", ["2.DCM"; "notes.txt"])]
                  else None;
     InPlace.os_path_join := fun a b => a +:+ "/" +:+ b |}.

End Ward.

(* ===================================================================== *)
(** ** Strings *)
(* ===================================================================== *)

Section strings.

Lemma append_nil s : "" +:+ s = s.
Proof. reflexivity. Qed.

Lemma append_cons a s t : String a s +:+ t = String a (s +:+ t).
Proof. reflexivity. Qed.

Lemma prefix_spec sub s :
  String.prefix sub s = true <-> exists post, s = sub +:+ post.
Proof.
  revert s. induction sub as [|a sub IH]; intros s; simpl.
  - split; [intros _; by exists s | by destruct s].
  - destruct s as [|b s]; simpl.
    + split; [done | intros [post H]; by rewrite append_cons in H].
    + destruct (ascii_dec a b) as [->|Hne].
      * rewrite IH. split; intros [post H]; exists post;
          rewrite append_cons in *; congruence.
      * split; [done|]. intros [post H]. rewrite append_cons in H.
        congruence.
Qed.

Lemma contains_nil sub :
  PyStr.contains sub "" = String.prefix sub "".
Proof. simpl. apply orb_false_r. Qed.

Lemma contains_cons sub b s :
  PyStr.contains sub (String b s)
  = String.prefix sub (String b s) || PyStr.contains sub s.
Proof. reflexivity. Qed.

Lemma contains_spec sub s :
  PyStr.contains sub s = true <-> has_substring sub s.
Proof.
  unfold has_substring. induction s as [|b s IH].
  - rewrite contains_nil, prefix_spec. split.
    + intros [post H]. by exists "", post.
    + intros (pre & post & H). destruct pre as [|b pre].
      * by exists post.
      * by rewrite append_cons in H.
  - rewrite contains_cons, orb_true_iff, prefix_spec, IH. split.
    + intros [[post H] | (pre & post & H)].
      * by exists "", post.
      * exists (String b pre), post. by rewrite append_cons, H.
    + intros (pre & post & H). destruct pre as [|b' pre].
      * left. by exists post.
      * right. exists pre, post. rewrite append_cons in H. congruence.
Qed.

Lemma endswith_lower_spec s suf :
  PyStr.endswith (PyStr.lower s) suf = true
  <-> exists stem ext, s = stem +:+ ext /\ PyStr.lower ext = suf.
Proof.
  induction s as [|b s IH].
  - simpl. rewrite orb_false_r. split.
    + intros H. exists "", "". split; [done|].
      destruct suf; [done | discriminate].
    + intros (stem & ext & H & <-).
      destruct stem as [|b stem]; [|by rewrite append_cons in H].
      rewrite append_nil in H. by subst.
  - change (PyStr.endswith (PyStr.lower (String b s)) suf) with
      (String.eqb (PyStr.lower (String b s)) suf
       || PyStr.endswith (PyStr.lower s) suf).
    rewrite orb_true_iff, IH, String.eqb_eq. split.
    + intros [H | (stem & ext & -> & H)].
      * by exists "", (String b s).
      * by exists (String b stem), ext.
    + intros (stem & ext & H & Hl). destruct stem as [|b' stem].
      * left. rewrite append_nil in H. by subst.
      * right. exists stem, ext. rewrite append_cons in H.
        split; congruence.
Qed.

Lemma lower_char_dot c : PyStr.lower_char c = "."%char <-> c = "."%char.
Proof.
  destruct c as [[] [] [] [] [] [] [] []]; vm_compute; split; congruence.
Qed.

Lemma lower_char_d c :
  PyStr.lower_char c = "d"%char <-> (c = "d" \/ c = "D")%char.
Proof.
  destruct c as [[] [] [] [] [] [] [] []]; vm_compute;
    (split; [intros ?; first [by left | by right | congruence]
            | intros [?|?]; congruence]).
Qed.

Lemma lower_char_c c :
  PyStr.lower_char c = "c"%char <-> (c = "c" \/ c = "C")%char.
Proof.
  destruct c as [[] [] [] [] [] [] [] []]; vm_compute;
    (split; [intros ?; first [by left | by right | congruence]
            | intros [?|?]; congruence]).
Qed.

Lemma lower_char_m c :
  PyStr.lower_char c = "m"%char <-> (c = "m" \/ c = "M")%char.
Proof.
  destruct c as [[] [] [] [] [] [] [] []]; vm_compute;
    (split; [intros ?; first [by left | by right | congruence]
            | intros [?|?]; congruence]).
Qed.

Lemma lower_is_dcm ext :
  PyStr.lower ext = ".dcm"
  <-> exists d c m,
        ext = String "." (String d (String c (String m "")))
        /\ (d = "d" \/ d = "D")%char
        /\ (c = "c" \/ c = "C")%char
        /\ (m = "m" \/ m = "M")%char.
Proof.
  split.
  - destruct ext as [|c0 [|c1 [|c2 [|c3 [|c4 ext]]]]]; simpl; try discriminate.
    intros H. injection H as H0 H1 H2 H3.
    apply lower_char_dot in H0 as ->.
    apply lower_char_d in H1. apply lower_char_c in H2.
    apply lower_char_m in H3. by exists c1, c2, c3.
  - intros (d & c & m & -> & Hd & Hc & Hm). simpl.
    apply lower_char_d in Hd. apply lower_char_c in Hc.
    apply lower_char_m in Hm. rewrite Hd, Hc, Hm.
    replace (PyStr.lower_char ".") with "."%char by (by vm_compute).
    done.
Qed.

Lemma has_dot_In s :
  has_substring "." s <-> In "."%char (String.list_ascii_of_string s).
Proof.
  unfold has_substring. induction s as [|b s IH].
  - split; [|done]. intros (pre & post & H).
    destruct pre; [rewrite append_nil in H | rewrite append_cons in H];
      discriminate.
  - change (String.list_ascii_of_string (String b s))
      with (b :: String.list_ascii_of_string s).
    split.
    + intros (pre & post & H). destruct pre as [|b' pre].
      * left. rewrite append_nil, append_cons in H. congruence.
      * right. apply IH. exists pre, post. rewrite append_cons in H.
        congruence.
    + intros [<- | (pre & post & ->)%IH].
      * by exists "", s.
      * by exists (String b pre), post.
Qed.

Lemma contains_dot_spec s :
  PyStr.contains "." s = false <-> has_no_dot s.
Proof.
  unfold has_no_dot. rewrite <- has_dot_In, <- contains_spec.
  by destruct (PyStr.contains "." s).
Qed.

Lemma mem_spec x l : PyStr.mem x l = true <-> x ∈ l.
Proof.
  unfold PyStr.mem. rewrite existsb_exists. setoid_rewrite <- list_elem_of_In.
  split.
  - intros (y & Hy & Heq). apply String.eqb_eq in Heq. by subst.
  - intros H. exists x. split; [done | apply String.eqb_refl].
Qed.

Lemma dict_get_spec d k v :
  NoDup d.*1 -> PyStr.dict_get d k = Some v <-> (k, v) ∈ d.
Proof.
  induction d as [|[k' v'] d IH]; simpl; intros Hnd.
  - split; [done | by intros ?%elem_of_nil].
  - apply NoDup_cons in Hnd as [Hk Hnd].
    destruct (String.eqb_spec k k') as [->|Hne].
    + split.
      * intros [= ->]. by left.
      * intros [[= ->]|Hin]%elem_of_cons; [done|].
        exfalso. apply Hk. apply list_elem_of_fmap. by exists (k', v).
    + rewrite IH by done. split.
      * by right.
      * intros [[= ? ?]|Hin]%elem_of_cons; [congruence | done].
Qed.

Lemma dict_get_none d k :
  PyStr.dict_get d k = None <-> ~ exists v, (k, v) ∈ d.
Proof.
  induction d as [|[k' v'] d IH]; simpl.
  - split; [by intros _ [? ?%elem_of_nil] | done].
  - destruct (String.eqb_spec k k') as [->|Hne].
    + split; [done | intros H; exfalso; apply H; exists v'; by left].
    + rewrite IH. split.
      * intros H [v [[= ? ?]|Hin]%elem_of_cons]; [congruence|].
        apply H. by exists v.
      * intros H [v Hin]. apply H. exists v. by right.
Qed.

End strings.

(* ===================================================================== *)
(** ** The rewrite loop *)
(* ===================================================================== *)

Section rewriter.

Variable c : codec_t.
Variable patient_id : string.

Lemma anonymize_tag_lookup_ne ds tag t :
  tag ≠ t -> anonymize_tag c patient_id ds tag !! t = ds !! t.
Proof.
  intros Hne. unfold anonymize_tag, assign.
  destruct (ds !! tag) as [old|]; [|done].
  destruct (c tag old _); by rewrite lookup_insert_ne.
Qed.

Lemma anonymize_tag_lookup_eq ds tag :
  anonymize_tag c patient_id ds tag !! tag
  = (fun old => left_by c tag old (new_value tag patient_id)) <$> ds !! tag.
Proof.
  unfold anonymize_tag, assign, left_by.
  destruct (ds !! tag) as [old|] eqn:E; [|by rewrite E].
  simpl. destruct (c tag old _); by rewrite lookup_insert_eq.
Qed.

Lemma rewrite_loop_lookup l ds t :
  NoDup l ->
  foldl (anonymize_tag c patient_id) ds l !! t
  = if bool_decide (t ∈ l)
    then (fun old => left_by c t old (new_value t patient_id)) <$> ds !! t
    else ds !! t.
Proof.
  intros Hnd. revert ds.
  induction Hnd as [|a l Ha Hnd IH]; intros ds; simpl.
  - done.
  - rewrite IH. destruct (decide (t = a)) as [->|Hne].
    + rewrite (bool_decide_eq_false_2 (a ∈ l)) by done.
      rewrite bool_decide_eq_true_2 by apply list_elem_of_here.
      apply anonymize_tag_lookup_eq.
    + rewrite anonymize_tag_lookup_ne by done.
      destruct (decide (t ∈ l)) as [Hin|Hin].
      * rewrite !bool_decide_eq_true_2; [done | by right | done].
      * rewrite !bool_decide_eq_false_2; [done | | done].
        by intros [?|?]%elem_of_cons.
Qed.

Lemma TAGS_TO_ANONYMIZE_NoDup : NoDup TAGS_TO_ANONYMIZE.
Proof. apply (bool_decide_unpack _). by vm_compute. Qed.

Lemma anonymize_tags_lookup ds t :
  anonymize_tags c patient_id ds !! t
  = if bool_decide (t ∈ TAGS_TO_ANONYMIZE)
    then (fun old => left_by c t old (new_value t patient_id)) <$> ds !! t
    else ds !! t.
Proof. apply rewrite_loop_lookup, TAGS_TO_ANONYMIZE_NoDup. Qed.

(** An attribute the codec accepts ends up with the value of its rule,
    whatever happens to the other attributes. *)
Lemma anonymize_tags_stored ds tag old :
  tag ∈ TAGS_TO_ANONYMIZE ->
  ds !! tag = Some old ->
  c tag old (new_value tag patient_id) = Stored ->
  anonymize_tags c patient_id ds !! tag = Some (new_value tag patient_id).
Proof.
  intros Hin Hold Hc. rewrite anonymize_tags_lookup.
  rewrite bool_decide_eq_true_2 by done. rewrite Hold. simpl.
  unfold left_by. by rewrite Hc.
Qed.

(** No attribute is added and none is removed. *)
Lemma anonymize_tags_dom ds :
  dom (anonymize_tags c patient_id ds) = dom ds.
Proof.
  apply set_eq. intros t. rewrite !elem_of_dom, anonymize_tags_lookup.
  case_bool_decide; [|done]. by rewrite fmap_is_Some.
Qed.

End rewriter.

Lemma FIXED_VALUES_NoDup : NoDup FIXED_VALUES.*1.
Proof. apply (bool_decide_unpack _). by vm_compute. Qed.

(** The chain of [if]/[elif] picks the value of the rule the resolution
    order gives. *)
Lemma new_value_resolves tag r patient_id :
  resolves tag r -> new_value tag patient_id = rule_value r patient_id.
Proof.
  unfold new_value. intros Hr.
  destruct (PyStr.mem tag TAGS_TO_EMPTY) eqn:He.
  { apply mem_spec in He. by destruct Hr. }
  assert (tag ∉ TAGS_TO_EMPTY) as Hne.
  { intros ?%mem_spec. congruence. }
  destruct (PyStr.mem tag ["PatientName"; "PatientID"]) eqn:Hi.
  { apply mem_spec in Hi.
    assert (is_identity tag) as Hid.
    { apply elem_of_cons in Hi as [?|Hi]; [by left|].
      apply elem_of_cons in Hi as [?|Hi]; [by right|].
      by apply elem_of_nil in Hi. }
    by destruct Hr. }
  assert (~ is_identity tag) as Hnid.
  { intros Hid.
    assert (PyStr.mem tag ["PatientName"; "PatientID"] = true); [|congruence].
    apply mem_spec. destruct Hid as [->| ->]; [by left | right; by left]. }
  destruct (PyStr.dict_get FIXED_VALUES tag) as [v|] eqn:Hf.
  { apply dict_get_spec in Hf; [|apply FIXED_VALUES_NoDup].
    assert (in_fixed_map tag) by (by exists v).
    destruct Hr as [| |c' _ _ Hc| |]; try done.
    simpl. apply dict_get_spec in Hf, Hc; try apply FIXED_VALUES_NoDup.
    congruence. }
  apply dict_get_none in Hf.
  destruct (PyStr.contains "Description" tag || PyStr.contains "Name" tag)
    eqn:Hd.
  - apply orb_true_iff in Hd. rewrite !contains_spec in Hd.
    destruct Hr as [| |c' _ _ Hc| |]; try done.
    exfalso. apply Hf. by exists c'.
  - apply orb_false_iff in Hd as [Hd1 Hd2].
    assert (~ descriptive tag) as Hnd.
    { unfold descriptive. rewrite <- !contains_spec. intros [?|?]; congruence. }
    destruct Hr as [| |c' _ _ Hc| |]; try done.
    exfalso. apply Hf. by exists c'.
Qed.

(** Every attribute name resolves to some rule. *)
Lemma resolves_total tag : exists r, resolves tag r.
Proof.
  destruct (decide (tag ∈ TAGS_TO_EMPTY)) as [|He].
  { exists Empty. by constructor. }
  destruct (decide (tag = "PatientName" \/ tag = "PatientID")) as [|Hi].
  { exists UseSuppliedIdentifier. by constructor. }
  destruct (PyStr.dict_get FIXED_VALUES tag) as [v|] eqn:Hf.
  { apply dict_get_spec in Hf; [|apply FIXED_VALUES_NoDup].
    exists (FixedValue v). by constructor. }
  apply dict_get_none in Hf.
  destruct (PyStr.contains "Description" tag || PyStr.contains "Name" tag)
    eqn:Hd.
  - apply orb_true_iff in Hd. rewrite !contains_spec in Hd.
    exists (FixedValue "ANONYMIZED"). by apply resolve_descriptive.
  - apply orb_false_iff in Hd as [Hd1 Hd2].
    exists UseSuppliedIdentifier. apply resolve_default; try done.
    unfold descriptive. rewrite <- !contains_spec. intros [?|?]; congruence.
Qed.

(** C1.  For an attribute of the policy table that is present in the record,
    the rule applied by [anonymize_dicom_file] is the one the resolution
    order gives: empty set first, then the two identity attributes, then the
    fixed-value map, then the "Description"/"Name" heuristic, then the
    supplied identifier.  The value the chain assigns is the value of that
    rule, and it is what the record holds afterwards once the codec has
    stored it.  PatientMotherBirthName matches the name heuristic and is in
    the empty set: its rule is Empty. *)
Theorem rewrite_rule_precedence (c : codec_t) (patient_id : string)
    (ds : dataset) (tag old : string) (r : rule) :
  tag ∈ TAGS_TO_ANONYMIZE ->
  ds !! tag = Some old ->
  resolves tag r ->
  c tag old (rule_value r patient_id) = Stored ->
  new_value tag patient_id = rule_value r patient_id
  /\ anonymize_tags c patient_id ds !! tag = Some (rule_value r patient_id)
  /\ (tag = "PatientMotherBirthName" -> descriptive tag /\ r = Empty).
Proof.
  intros Hin Hold Hr Hc.
  pose proof (new_value_resolves tag r patient_id Hr) as Hv.
  split; [done|]. split.
  - rewrite <- Hv in *. by eapply anonymize_tags_stored.
  - intros ->. split.
    + right. by exists "PatientMotherBirth", "".
    + assert ("PatientMotherBirthName" ∈ TAGS_TO_EMPTY) as He.
      { apply (bool_decide_unpack _). by vm_compute. }
      by destruct Hr.
Qed.

Lemma rewrite_rule_precedence_witness :
  new_value "PatientMotherBirthName" "ANON_7" = ""
  /\ anonymize_tags (fun _ _ _ => Stored) "ANON_7"
       {[ "PatientMotherBirthName" := "Doe" ]} !! "PatientMotherBirthName"
     = Some ""
  /\ ("PatientMotherBirthName" = "PatientMotherBirthName" ->
      descriptive "PatientMotherBirthName" /\ Empty = Empty).
Proof.
  apply (rewrite_rule_precedence (fun _ _ _ => Stored) "ANON_7"
           {[ "PatientMotherBirthName" := "Doe" ]}
           "PatientMotherBirthName" "Doe" Empty).
  - apply (bool_decide_unpack _). vm_compute. exact I.
  - apply lookup_singleton_eq.
  - apply resolve_empty. apply (bool_decide_unpack _). vm_compute. exact I.
  - reflexivity.
Defined.

(** C5.  Under fixed mode, a date or time attribute of the fixed-value map
    that is present in the record holds the documented constant after the
    rewrite: "19000101" for PatientBirthDate, "20000101" for the study,
    series, acquisition and content dates, "120000" for the four times. *)
Theorem fixed_mode_date_time (c : codec_t) (patient_id : string)
    (ds : dataset) (tag old constant : string) :
  (tag, constant) ∈ documented_date_time ->
  ds !! tag = Some old ->
  c tag old constant = Stored ->
  anonymize_tags c patient_id ds !! tag = Some constant.
Proof.
  intros Hin Hold Hc.
  assert (tag ∈ TAGS_TO_ANONYMIZE /\ new_value tag patient_id = constant)
    as [Ht Hv].
  { unfold documented_date_time in Hin.
    repeat (apply elem_of_cons in Hin as [[= -> ->]|Hin];
            [split; [apply (bool_decide_unpack _); by vm_compute
                    | by vm_compute]|]).
    by apply elem_of_nil in Hin. }
  rewrite <- Hv in *. by eapply anonymize_tags_stored.
Qed.

Lemma fixed_mode_date_time_witness :
  anonymize_tags (fun _ _ _ => Stored) "ANON_7"
    {[ "StudyTime" := "093015" ]} !! "StudyTime" = Some "120000".
Proof.
  apply (fixed_mode_date_time (fun _ _ _ => Stored) "ANON_7"
           {[ "StudyTime" := "093015" ]} "StudyTime" "093015" "120000").
  - apply (bool_decide_unpack _). vm_compute. exact I.
  - apply lookup_singleton_eq.
  - reflexivity.
Defined.

(** C6.  Under fixed mode the rewrite of a record is idempotent: with the
    same supplied identifier, rewriting the rewritten record gives the
    rewritten record again.  The codec's verdict on an assignment is taken
    to depend on the attribute and the new value only, a rejected element
    being left as it was. *)
Theorem rewrite_idempotent (c : codec_t) (patient_id : string) (ds : dataset) :
  settled c ->
  anonymize_tags c patient_id (anonymize_tags c patient_id ds)
  = anonymize_tags c patient_id ds.
Proof.
  intros Hc. apply map_eq. intros t.
  rewrite !anonymize_tags_lookup. case_bool_decide; [|done].
  destruct (ds !! t) as [old|]; [|done]. simpl. f_equal.
  unfold left_by.
  destruct (Hc t (new_value t patient_id)) as [Hv|Hv]; by rewrite !Hv.
Qed.

Lemma rewrite_idempotent_witness :
  anonymize_tags Sample.picky_codec "ANON_7"
    (anonymize_tags Sample.picky_codec "ANON_7" Sample.patient)
  = anonymize_tags Sample.picky_codec "ANON_7" Sample.patient.
Proof.
  apply (rewrite_idempotent Sample.picky_codec "ANON_7" Sample.patient).
  intros tag v. unfold Sample.picky_codec.
  destruct (String.eqb tag "PatientSex"); [right | left]; reflexivity.
Defined.

(* ===================================================================== *)
(** ** File-system calls: what they leave on the disk *)
(* ===================================================================== *)

Section disk_facts.

Lemma path_exists_spec (d : disk) q :
  path_exists d q = true <-> q = [] \/ q = ["/"] \/ is_Some (d !! q).
Proof.
  unfold path_exists, is_dir. rewrite orb_true_iff, bool_decide_eq_true.
  destruct q as [|x q]; [split; auto|].
  case_bool_decide as Hq; [split; auto|].
  destruct (d !! (x :: q)) as [[]|] eqn:E.
  - split; eauto.
  - split; [intros [?|?]; eauto | intros [?|[?|?]]; auto; done].
  - split; [intros [?|[]]; done | intros [?|[?|[]]]; done].
Qed.

Lemma is_dir_exists (d : disk) q : is_dir d q = true -> path_exists d q = true.
Proof. unfold path_exists. by intros ->. Qed.

Lemma path_exists_insert (d : disk) p n q :
  path_exists d q = true -> path_exists (<[p := n]> d) q = true.
Proof.
  rewrite !path_exists_spec. intros [?|[?|Hq]]; [by left | by right; left |].
  right; right. destruct (decide (p = q)) as [->|Hne].
  - by rewrite lookup_insert_eq.
  - by rewrite lookup_insert_ne.
Qed.

Lemma path_exists_insert_eq (d : disk) p n :
  path_exists (<[p := n]> d) p = true.
Proof. apply path_exists_spec. right; right. by rewrite lookup_insert_eq. Qed.

Lemma tame_ret {A} (a : A) : tame (ret a).
Proof. intros d r d' [= <- <-]. done. Qed.

Lemma tame_raise_exception {A} what : tame (@raise A (Exception what)).
Proof. intros d r d' [= <- <-]. done. Qed.

Lemma tame_raise_interrupt {A} : tame (@raise A KeyboardInterrupt).
Proof. intros d r d' [= <- <-]. done. Qed.

Lemma tame_bind {A B} (m : io A) (k : A -> io B) :
  tame m -> (forall a, tame (k a)) -> tame (bind m k).
Proof.
  intros Hm Hk d r d'. unfold bind.
  destruct (m d) as [[a|e] d1] eqn:E; intros H.
  - destruct (Hm _ _ _ E) as [_ H1]. destruct (Hk a _ _ _ H) as [H2 H3].
    split; [done|]. auto.
  - injection H as <- <-. destruct (Hm _ _ _ E) as [H1 H2].
    split; [|done]. intros code [= ->]. by eapply H1.
Qed.

Lemma tame_try_except {A} (body : io A) handler :
  tame body -> (forall what, tame (handler what)) ->
  tame (try_except body handler).
Proof.
  intros Hb Hh d r d'. unfold try_except.
  destruct (body d) as [[a|[what| |code]] d1] eqn:E; intros H.
  - injection H as <- <-. by apply (Hb _ _ _ E).
  - destruct (Hb _ _ _ E) as [_ H1]. destruct (Hh what _ _ _ H) as [H2 H3].
    split; [done|]. auto.
  - injection H as <- <-. by apply (Hb _ _ _ E).
  - injection H as <- <-. by apply (Hb _ _ _ E).
Qed.

Lemma tame_for_each {A S} (body : A -> S -> io S) l :
  (forall x s, tame (body x s)) -> forall s, tame (for_each body l s).
Proof.
  intros Hb. induction l as [|x l IH]; intros s; simpl.
  - apply tame_ret.
  - apply tame_bind; [apply Hb | apply IH].
Qed.

Lemma tame_cond {A} (b : bool) (m1 m2 : io A) :
  tame m1 -> tame m2 -> tame (if b then m1 else m2).
Proof. by destruct b. Qed.

Lemma tame_mkdirs_from env made todo : tame (mkdirs_from env made todo).
Proof.
  revert made. induction todo as [|name rest IH]; intros made; simpl.
  - apply tame_ret.
  - intros d r d'. destruct (is_dir d (made ++ [name])); [apply IH|].
    destruct (d !! (made ++ [name])) as [n|] eqn:E.
    { intros [= <- <-]. done. }
    destruct (write_denied env (made ++ [name])).
    { intros [= <- <-]. done. }
    intros H. destruct (IH _ _ _ _ H) as [H1 H2]. split; [done|].
    intros q Hq. by apply H2, path_exists_insert.
Qed.

Lemma tame_os_makedirs env p : tame (os_makedirs env p).
Proof.
  destruct p; [apply tame_raise_exception | apply tame_mkdirs_from].
Qed.

Lemma tame_Path_mkdir env p : tame (Path_mkdir env p).
Proof. apply tame_mkdirs_from. Qed.

Lemma write_file_returned env p c d d' :
  write_file env p c d = (Returned tt, d') -> d' = <[p := Regular c]> d.
Proof.
  unfold write_file. repeat case_match; congruence.
Qed.

Lemma write_file_raised env p c d e d' :
  write_file env p c d = (Raised e, d') ->
  d' = d /\ exists what, e = Exception what.
Proof.
  unfold write_file. repeat case_match; intros [= <- <-]; eauto.
Qed.

Lemma tame_write_file env p c : tame (write_file env p c).
Proof.
  intros d [[]|e] d' H.
  - apply write_file_returned in H as ->. split; [done|].
    intros q. apply path_exists_insert.
  - apply write_file_raised in H as [-> [what ->]]. done.
Qed.

Lemma tame_dcmread env ip src : tame (dcmread env ip src).
Proof.
  unfold dcmread. apply tame_cond; [apply tame_raise_exception|].
  destruct src; [apply tame_ret | apply tame_raise_exception].
Qed.

Lemma tame_shutil_copy2 env sp name src dst :
  tame (shutil_copy2 env sp name src dst).
Proof.
  unfold shutil_copy2. apply tame_cond; [apply tame_raise_exception|].
  intros d r d' H. by apply tame_write_file in H.
Qed.

Lemma tame_anonymize_dicom_file env ip src op pid :
  tame (anonymize_dicom_file env ip src op pid).
Proof.
  unfold anonymize_dicom_file. apply tame_try_except.
  - apply tame_bind; [apply tame_dcmread|]. intros ds.
    apply tame_bind; [apply tame_os_makedirs|]. intros _.
    apply tame_bind; [apply tame_write_file|]. intros _. apply tame_ret.
  - intros _. apply tame_ret.
Qed.

Lemma tame_visit_file env i o pid root entry st :
  tame (visit_file env i o pid root entry st).
Proof.
  unfold visit_file. destruct entry as [filename src].
  apply tame_cond; [apply tame_raise_interrupt|].
  destruct (relative_to _ _) as [rel|]; [|apply tame_raise_exception].
  apply tame_cond.
  - apply tame_bind; [apply tame_anonymize_dicom_file|].
    intros []; apply tame_ret.
  - apply tame_bind; [apply tame_Path_mkdir|]. intros _.
    apply tame_bind; [apply tame_shutil_copy2|]. intros _. apply tame_ret.
Qed.

Lemma tame_visit_dir env i o pid listing st :
  tame (visit_dir env i o pid listing st).
Proof. apply tame_for_each. intros. apply tame_visit_file. Qed.

Lemma tame_anonymize_directory env i o pid :
  tame (anonymize_directory env i o pid).
Proof.
  unfold anonymize_directory. destruct (mount env i); [|apply tame_ret].
  apply tame_bind; [apply tame_Path_mkdir|]. intros _.
  apply tame_bind.
  - apply tame_for_each. intros. apply tame_visit_dir.
  - intros st. apply tame_ret.
Qed.

End disk_facts.

(* ===================================================================== *)
(** ** anonymize_dicom_file: reading, rewriting, persisting *)
(* ===================================================================== *)

Section rewrite_file.

Lemma mkdirs_from_raised env made todo d e d' :
  mkdirs_from env made todo d = (Raised e, d') ->
  exists what, e = Exception what.
Proof.
  revert made d. induction todo as [|name rest IH]; intros made d; simpl.
  - discriminate.
  - destruct (is_dir d (made ++ [name])); [apply IH|].
    destruct (d !! (made ++ [name])); [intros [= <- <-]; eauto|].
    destruct (write_denied env (made ++ [name]));
      [intros [= <- <-]; eauto | apply IH].
Qed.

Lemma mkdirs_from_set_codec c env made todo d :
  mkdirs_from (set_codec c env) made todo d = mkdirs_from env made todo d.
Proof.
  revert made d. induction todo as [|name rest IH]; intros made d; simpl.
  - done.
  - destruct (is_dir d (made ++ [name])); [apply IH|].
    destruct (d !! (made ++ [name])); [done|].
    destruct (write_denied env (made ++ [name])); [done | apply IH].
Qed.

Lemma persist_set_codec c env ds op d :
  persist (set_codec c env) ds op d = persist env ds op d.
Proof.
  unfold persist, bind, os_makedirs.
  destruct (parent op) as [|x l]; [done|].
  rewrite mkdirs_from_set_codec.
  by destruct (mkdirs_from env [] (x :: l) d) as [[[]|e] d1].
Qed.

Lemma persist_raised env ds op d e d' :
  persist env ds op d = (Raised e, d') -> exists what, e = Exception what.
Proof.
  unfold persist, bind, os_makedirs, save_as.
  destruct (parent op) as [|x l].
  - intros [= <- <-]. eauto.
  - destruct (mkdirs_from env [] (x :: l) d) as [[[]|e1] d1] eqn:E.
    + intros H. apply write_file_raised in H as [_ H]. done.
    + intros [= <- <-]. by eapply mkdirs_from_raised.
Qed.

Lemma persist_returned env ds op d d' :
  persist env ds op d = (Returned tt, d') ->
  d' !! op = Some (Regular (Dicom ds)).
Proof.
  unfold persist, bind, save_as.
  destruct (os_makedirs env (parent op) d) as [[[]|e1] d1]; [|done].
  intros ->%write_file_returned. apply lookup_insert_eq.
Qed.

(** Whether the persist step succeeds does not depend on the record. *)
Lemma persist_outcome env ds1 ds2 op d :
  (persist env ds1 op d).1 = (persist env ds2 op d).1.
Proof.
  unfold persist, bind, save_as.
  destruct (os_makedirs env (parent op) d) as [[[]|e1] d1]; [|done].
  unfold write_file. by repeat case_match.
Qed.

(** The control flow of [anonymize_dicom_file], step by step. *)
Lemma anonymize_dicom_file_eq env ip src op pid d :
  anonymize_dicom_file env ip src op pid d =
  if read_denied env ip then (Returned false, d)
  else match src with
       | Blob _ => (Returned false, d)
       | Dicom ds =>
           match persist env (anonymize_tags (codec env) pid ds) op d with
           | (Returned _, d') => (Returned true, d')
           | (Raised _, d') => (Returned false, d')
           end
       end.
Proof.
  unfold anonymize_dicom_file, try_except, dcmread.
  destruct (read_denied env ip); [done|].
  destruct src as [ds|b]; [|done].
  destruct (persist _ _ op d) as [[[]|e] d'] eqn:E.
  - revert E. unfold persist, bind, ret.
    destruct (os_makedirs env (parent op) d) as [[[]|e1] d1]; [|done].
    by destruct (save_as _ _ _ d1) as [[[]|e2] d2]; intros [= <-].
  - destruct (persist_raised _ _ _ _ _ _ E) as [what ->].
    revert E. unfold persist, bind, ret.
    destruct (os_makedirs env (parent op) d) as [[[]|e1] d1].
    + intros ->. done.
    + by intros [= -> ->].
Qed.

End rewrite_file.

(** C2.  A failing attribute assignment stays local.  The outcome returned
    for the file is the same whatever the codec does to single attributes;
    it is failure when the source cannot be read, and otherwise it is
    decided by the persist step alone (parent directories, then the write),
    which is always attempted.  In the record that is written, every
    attribute of the policy table that is present and whose assignment the
    codec stores holds the value of its rule, whatever happened to the
    other attributes. *)
Theorem per_attribute_failure_isolation (env : environment)
    (input_path : path) (src : content) (output_path : path)
    (patient_id : string) (d : disk) :
  let run := anonymize_dicom_file env input_path src output_path patient_id d in
  (forall c',
     (anonymize_dicom_file (set_codec c' env) input_path src output_path
        patient_id d).1 = run.1)
  /\ (read_denied env input_path = true \/ (exists b, src = Blob b) ->
      run = (Returned false, d))
  /\ (forall ds,
        read_denied env input_path = false -> src = Dicom ds ->
        let ds' := anonymize_tags (codec env) patient_id ds in
        (forall tag old,
           tag ∈ TAGS_TO_ANONYMIZE -> ds !! tag = Some old ->
           codec env tag old (new_value tag patient_id) = Stored ->
           ds' !! tag = Some (new_value tag patient_id))
        /\ (forall d', persist env ds' output_path d = (Returned tt, d') ->
              run = (Returned true, d')
              /\ d' !! output_path = Some (Regular (Dicom ds')))
        /\ (forall e d', persist env ds' output_path d = (Raised e, d') ->
              run = (Returned false, d'))).
Proof.
  intros run. subst run. split; [|split].
  - intros c'. rewrite !anonymize_dicom_file_eq. simpl.
    destruct (read_denied env input_path); [done|].
    destruct src as [ds|b]; [|done].
    rewrite persist_set_codec.
    pose proof (persist_outcome env (anonymize_tags c' patient_id ds)
                  (anonymize_tags (codec env) patient_id ds) output_path d) as H.
    destruct (persist env (anonymize_tags c' patient_id ds) output_path d)
      as [[[]|e1] d1];
      destruct (persist env (anonymize_tags (codec env) patient_id ds)
                  output_path d) as [[[]|e2] d2]; simpl in *; congruence.
  - rewrite anonymize_dicom_file_eq. intros [-> | [b ->]]; [done|].
    by destruct (read_denied env input_path).
  - intros ds Hread -> ds'. rewrite anonymize_dicom_file_eq, Hread.
    fold ds'. split; [|split].
    + intros tag old Hin Hold Hc. by eapply anonymize_tags_stored.
    + intros d' H. rewrite H. split; [done|]. by eapply persist_returned.
    + intros e d' H. by rewrite H.
Qed.

Lemma per_attribute_failure_isolation_witness :
  let ds' := anonymize_tags Sample.picky_codec "ANON_7" Sample.patient in
  ds' !! "PatientSex" = Some "F"
  /\ ds' !! "PatientName" = Some "ANON_7"
  /\ ds' !! "StudyDate" = Some "20000101"
  /\ exists d',
        anonymize_dicom_file Sample.clinic ["in"; "scan.dcm"]
          (Dicom Sample.patient) ["out"; "scan.dcm"] "ANON_7" ∅
        = (Returned true, d')
        /\ d' !! ["out"; "scan.dcm"] = Some (Regular (Dicom ds')).
Proof.
  intros ds'.
  destruct (per_attribute_failure_isolation Sample.clinic ["in"; "scan.dcm"]
              (Dicom Sample.patient) ["out"; "scan.dcm"] "ANON_7" ∅)
    as (_ & _ & H).
  destruct (H Sample.patient eq_refl eq_refl) as (Hstored & Hsaved & _).
  split; [by vm_compute|].
  split; [apply (Hstored "PatientName" "Doe^Jane");
          [apply (bool_decide_unpack _); by vm_compute
          | by vm_compute | reflexivity]|].
  split; [apply (Hstored "StudyDate" "20240610");
          [apply (bool_decide_unpack _); by vm_compute
          | by vm_compute | reflexivity]|].
  eexists. apply Hsaved. by vm_compute.
Defined.

(* ===================================================================== *)
(** ** The directory walk *)
(* ===================================================================== *)

Section walk.

Lemma for_each_measure {A S} (body : A -> S -> io S)
    (m : S -> nat) (w : A -> nat) :
  (forall x s d s' d', body x s d = (Returned s', d') -> m s' = m s + w x) ->
  forall l s d s' d',
    for_each body l s d = (Returned s', d') ->
    m s' = m s + sum_list (map w l).
Proof.
  intros Hb. induction l as [|x l IH]; intros s d s' d'; simpl.
  - intros [= <- <-]. lia.
  - unfold bind. destruct (body x s d) as [[s1|e] d1] eqn:E; [|done].
    intros H. apply IH in H. apply Hb in E. lia.
Qed.

Lemma for_each_preserved {A S} (body : A -> S -> io S)
    (Q : S -> disk -> Prop) :
  (forall x s d s' d', body x s d = (Returned s', d') -> Q s d -> Q s' d') ->
  forall l s d s' d',
    for_each body l s d = (Returned s', d') -> Q s d -> Q s' d'.
Proof.
  intros Hb. induction l as [|x l IH]; intros s d s' d'; simpl.
  - by intros [= <- <-].
  - unfold bind. destruct (body x s d) as [[s1|e] d1] eqn:E; [|done].
    intros H HQ. eapply IH; [done|]. by eapply Hb.
Qed.

Lemma for_each_established {A S} (body : A -> S -> io S)
    (Q : S -> disk -> Prop) (x0 : A) :
  (forall x s d s' d', body x s d = (Returned s', d') -> Q s d -> Q s' d') ->
  (forall s d s' d', body x0 s d = (Returned s', d') -> Q s' d') ->
  forall l s d s' d',
    x0 ∈ l -> for_each body l s d = (Returned s', d') -> Q s' d'.
Proof.
  intros Hkeep Hmake. induction l as [|x l IH]; intros s d s' d' Hin; simpl.
  - by apply elem_of_nil in Hin.
  - unfold bind. destruct (body x s d) as [[s1|e] d1] eqn:E; [|done].
    intros H. apply elem_of_cons in Hin as [<-|Hin].
    + eapply for_each_preserved; [apply Hkeep | done |]. by eapply Hmake.
    + by eapply IH.
Qed.

Lemma sum_list_ones {A} (l : list A) :
  sum_list (map (fun _ => 1) l) = length l.
Proof. induction l; simpl; lia. Qed.

Lemma relative_to_app i p : relative_to (i ++ p) i = Some p.
Proof. induction i as [|x i IH]; simpl; [done|]. by rewrite String.eqb_refl. Qed.

(** One visited file: one more in the total, one more in exactly one of
    the three other counters, and [failed] never goes down. *)
Lemma visit_file_counts env i o pid root entry st d st' d' :
  visit_file env i o pid root entry st d = (Returned st', d') ->
  total_files st' = total_files st + 1
  /\ anonymized st' + failed st' + skipped st'
     = anonymized st + failed st + skipped st + 1
  /\ failed st <= failed st'.
Proof.
  unfold visit_file. destruct entry as [filename src].
  destruct (interrupted env (root ++ [filename])); [done|].
  destruct (relative_to _ _) as [rel|]; [|done].
  destruct (is_dicom_name filename); unfold bind.
  - destruct (anonymize_dicom_file _ _ _ _ _ d) as [[[]|e] d1]; [| |done];
      intros [= <- <-]; simpl; lia.
  - destruct (Path_mkdir _ _ d) as [[[]|e] d1]; [|done].
    destruct (shutil_copy2 _ _ _ _ _ d1) as [[[]|e] d2]; [|done].
    intros [= <- <-]; simpl; lia.
Qed.

(** An opaque file is copied as it is, to the mirrored path or, when a
    directory sits there, into that directory. *)
Lemma visit_file_copies env i o pid root filename src st d st' d' :
  is_dicom_name filename = false ->
  visit_file env i o pid root (filename, src) st d = (Returned st', d') ->
  exists rel target,
    relative_to (root ++ [filename]) i = Some rel
    /\ (target = o ++ rel \/ target = (o ++ rel) ++ [filename])
    /\ d' !! target = Some (Regular src)
    /\ skipped st' = skipped st + 1.
Proof.
  intros Hname. unfold visit_file. rewrite Hname.
  destruct (interrupted env (root ++ [filename])); [done|].
  destruct (relative_to _ _) as [rel|]; [|done].
  unfold bind.
  destruct (Path_mkdir _ _ d) as [[[]|e] d1]; [|done].
  destruct (shutil_copy2 _ _ _ _ _ d1) as [[[]|e] d2] eqn:E; [|done].
  intros [= <- <-]. revert E. unfold shutil_copy2.
  destruct (read_denied env (root ++ [filename])); [done|].
  intros ->%write_file_returned.
  exists rel, (if is_dir d1 (o ++ rel) then (o ++ rel) ++ [filename]
               else o ++ rel).
  split; [done|]. split; [|split].
  - destruct (is_dir d1 (o ++ rel)); [by right | by left].
  - apply lookup_insert_eq.
  - done.
Qed.

(** A visit that does not count a failure leaves something at the
    mirrored path. *)
Lemma visit_file_mirrors env i o pid rd name src st d st' d' :
  visit_file env i o pid (i ++ rd) (name, src) st d = (Returned st', d') ->
  failed st' = failed st ->
  path_exists d' (o ++ rd ++ [name]) = true.
Proof.
  destruct (is_dicom_name name) eqn:Hname.
  - unfold visit_file. rewrite Hname, <- app_assoc, relative_to_app.
    destruct (interrupted env _); [done|].
    unfold bind. rewrite anonymize_dicom_file_eq.
    destruct (read_denied env _).
    { intros [= <- <-]. simpl. lia. }
    destruct src as [ds|b]; [|intros [= <- <-]; simpl; lia].
    destruct (persist _ _ _ d) as [[[]|e] d1] eqn:E.
    + intros [= <- <-] _. apply persist_returned in E.
      apply path_exists_spec. right; right. by rewrite E.
    + intros [= <- <-]. simpl. lia.
  - intros H _.
    destruct (visit_file_copies _ _ _ _ _ _ _ _ _ _ _ Hname H)
      as (rel & target & Hrel & Htarget & Hd' & _).
    rewrite <- app_assoc, relative_to_app in Hrel. injection Hrel as <-.
    revert H. unfold visit_file. rewrite Hname, <- app_assoc, relative_to_app.
    destruct (interrupted env _); [done|]. unfold bind.
    destruct (Path_mkdir _ _ d) as [[[]|e] d1]; [|done].
    destruct (shutil_copy2 _ _ _ _ _ d1) as [[[]|e] d2] eqn:E; [|done].
    intros [= <- <-]. revert E. unfold shutil_copy2.
    destruct (read_denied env _); [done|].
    intros ->%write_file_returned.
    destruct (is_dir d1 (o ++ rd ++ [name])) eqn:Hdir.
    + by apply path_exists_insert, is_dir_exists.
    + apply path_exists_insert_eq.
Qed.

Lemma os_walk_folder root entries :
  os_walk root (Folder entries)
  = (root, files_of entries)
    :: (entries ≫= fun e => os_walk (root ++ [e.1]) e.2).
Proof.
  simpl. f_equal. induction entries as [|[name sub] es IH]; [done|].
  simpl. by rewrite IH.
Qed.

Lemma files_of_elem entries name c :
  (name, File c) ∈ entries -> (name, c) ∈ files_of entries.
Proof.
  induction entries as [|[n [c'|sub]] es IH]; simpl.
  - by intros ?%elem_of_nil.
  - intros [[= -> ->]|Hin]%elem_of_cons; [by left | right; auto].
  - intros [[=]|Hin]%elem_of_cons. auto.
Qed.

(** Every file below the root shows up in the listing of its directory. *)
Lemma file_at_listed t p c root :
  file_at t p c ->
  exists rd name files,
    p = rd ++ [name]
    /\ (root ++ rd, files) ∈ os_walk root t
    /\ (name, c) ∈ files.
Proof.
  intros H. revert root.
  induction H as [entries name c Hin | entries name sub p c Hin _ IH];
    intros root; rewrite os_walk_folder.
  - exists [], name, (files_of entries). split; [done|].
    rewrite app_nil_r. split; [by left | by apply files_of_elem].
  - destruct (IH (root ++ [name])) as (rd & nm & files & -> & Hw & Hf).
    exists (name :: rd), nm, files. split; [done|]. split; [|done].
    right. apply list_elem_of_bind. exists (name, sub). split; [|done].
    simpl. by rewrite <- app_assoc in Hw.
Qed.

End walk.

(* ===================================================================== *)
(** ** What the walk leaves at a mirrored path *)
(* ===================================================================== *)

Section mirror.

Lemma keeps_ret {A} I (a : A) : keeps I (ret a).
Proof. by intros d r d' [= <- <-]. Qed.

Lemma keeps_raise {A} I e : keeps I (@raise A e).
Proof. by intros d r d' [= <- <-]. Qed.

Lemma keeps_bind {A B} I (m : io A) (k : A -> io B) :
  keeps I m -> (forall a, keeps I (k a)) -> keeps I (bind m k).
Proof.
  intros Hm Hk d r d'. unfold bind.
  destruct (m d) as [[a|e] d1] eqn:E; intros H HI.
  - eapply Hk; [done|]. by eapply Hm.
  - injection H as <- <-. by eapply Hm.
Qed.

Lemma keeps_try_except {A} I (body : io A) handler :
  keeps I body -> (forall what, keeps I (handler what)) ->
  keeps I (try_except body handler).
Proof.
  intros Hb Hh d r d'. unfold try_except.
  destruct (body d) as [[a|[what| |code]] d1] eqn:E; intros H HI.
  - injection H as <- <-. by eapply Hb.
  - eapply Hh; [done|]. by eapply Hb.
  - injection H as <- <-. by eapply Hb.
  - injection H as <- <-. by eapply Hb.
Qed.

Lemma keeps_for_each {A S} I (body : A -> S -> io S) l :
  (forall x s, x ∈ l -> keeps I (body x s)) ->
  forall s, keeps I (for_each body l s).
Proof.
  induction l as [|x l IH]; intros Hb s; simpl.
  - apply keeps_ret.
  - apply keeps_bind; [apply Hb; by left|].
    intros s'. apply IH. intros y s0 Hy. apply Hb. by right.
Qed.

Lemma keeps_cond {A} I (b : bool) (m1 m2 : io A) :
  keeps I m1 -> keeps I m2 -> keeps I (if b then m1 else m2).
Proof. by destruct b. Qed.

Lemma is_dir_insert_ne (d : disk) p n q :
  p <> q -> is_dir (<[p := n]> d) q = is_dir d q.
Proof. intros Hne. unfold is_dir. by rewrite lookup_insert_ne. Qed.

Lemma is_dir_insert_regular (d : disk) p c q :
  is_dir d q = false -> is_dir (<[p := Regular c]> d) q = false.
Proof.
  destruct (decide (p = q)) as [->|Hne]; [|by rewrite is_dir_insert_ne].
  unfold is_dir. rewrite lookup_insert_eq.
  destruct q; [done|]. by case_bool_decide.
Qed.

Lemma is_dir_false_lookup (d : disk) q c :
  d !! q = Some (Regular c) -> q <> [] -> q <> ["/"] -> is_dir d q = false.
Proof.
  intros Hq Hnil Hroot. unfold is_dir. rewrite Hq.
  destruct q; [done|]. by case_bool_decide.
Qed.

(** Directories are only made along the path asked for. *)
Lemma keeps_no_dir_mkdirs env made todo q :
  ~ q `prefix_of` made ++ todo ->
  keeps (fun d => is_dir d q = false) (mkdirs_from env made todo).
Proof.
  revert made. induction todo as [|name rest IH]; intros made Hq; simpl.
  - apply keeps_ret.
  - assert (~ q `prefix_of` (made ++ [name]) ++ rest) as Hq'.
    { by rewrite <- app_assoc. }
    intros d r d'. destruct (is_dir d (made ++ [name])); [by apply IH|].
    destruct (d !! (made ++ [name])); [by intros [= <- <-]|].
    destruct (write_denied env (made ++ [name])); [by intros [= <- <-]|].
    intros H Hd. eapply IH; [done | done |].
    rewrite is_dir_insert_ne; [done|]. intros <-. apply Hq.
    exists rest. by rewrite <- app_assoc.
Qed.

Lemma keeps_no_dir_write env p c q :
  keeps (fun d => is_dir d q = false) (write_file env p c).
Proof.
  intros d [[]|e] d' H Hd.
  - apply write_file_returned in H as ->. by apply is_dir_insert_regular.
  - by apply write_file_raised in H as [-> _].
Qed.



Lemma keeps_anonymize_dicom_file I env ip src op pid :
  keeps I (os_makedirs env (parent op)) ->
  (forall c, keeps I (write_file env op c)) ->
  keeps I (anonymize_dicom_file env ip src op pid).
Proof.
  intros Hmk Hwr. unfold anonymize_dicom_file. apply keeps_try_except.
  - apply keeps_bind.
    { unfold dcmread. apply keeps_cond; [apply keeps_raise|].
      destruct src; [apply keeps_ret | apply keeps_raise]. }
    intros ds. apply keeps_bind; [done|]. intros _.
    apply keeps_bind; [apply Hwr|]. intros _. apply keeps_ret.
  - intros _. apply keeps_ret.
Qed.


Lemma tree_induction (P : tree -> Prop) :
  (forall c, P (File c)) ->
  (forall entries, Forall (fun e => P e.2) entries -> P (Folder entries)) ->
  forall t, P t.
Proof.
  intros Hfile Hfolder. fix IH 1. intros [c|entries]; [apply Hfile|].
  apply Hfolder. revert entries. fix IHes 1.
  intros [|[name sub] es]; constructor; [apply IH | apply IHes].
Qed.

Lemma NoDup_fst_agree {A} (l : list (string * A)) k v1 v2 :
  NoDup l.*1 -> (k, v1) ∈ l -> (k, v2) ∈ l -> v1 = v2.
Proof.
  induction l as [|[k' v'] l IH]; simpl; intros Hnd H1 H2.
  - by apply elem_of_nil in H1.
  - apply NoDup_cons in Hnd as [Hk Hnd].
    apply elem_of_cons in H1 as [H1|H1];
      apply elem_of_cons in H2 as [H2|H2]; simplify_eq; try done.
    + exfalso. apply Hk. apply list_elem_of_fmap. by eexists (_, v2).
    + exfalso. apply Hk. apply list_elem_of_fmap. by eexists (_, v1).
    + by apply IH.
Qed.

(** A listing of the walk belongs to the root or to a sub-directory. *)
Lemma os_walk_roots t :
  forall root root' files,
    (root', files) ∈ os_walk root t -> exists rd, root' = root ++ rd.
Proof.
  induction t as [c|entries IH] using tree_induction; intros root root' files.
  - by intros ?%elem_of_nil.
  - rewrite os_walk_folder.
    intros [[= -> ->]|Hin]%elem_of_cons; [exists []; by rewrite app_nil_r|].
    apply list_elem_of_bind in Hin as ([n sub] & Hin & He).
    rewrite Forall_forall in IH. apply (IH _ He) in Hin as [rd ->].
    exists (n :: rd). simpl. by rewrite <- app_assoc.
Qed.

(** The walk never enters a directory below the path of a file. *)
Lemma file_not_entered t p c :
  file_at t p c -> wf_tree t ->
  forall root rd files,
    (root ++ rd, files) ∈ os_walk root t -> ~ p `prefix_of` rd.
Proof.
  intros H.
  induction H as [entries name c Hin | entries name sub p c Hin Hfile IH];
    intros Hwf root rd files; rewrite os_walk_folder;
    inversion Hwf as [|entries' Hnd Hsub]; subst.
  - intros [[= Hrd]|Hw]%elem_of_cons.
    + assert (rd = []) as -> by (by eapply app_inv_head; rewrite app_nil_r).
      apply prefix_nil_not.
    + apply list_elem_of_bind in Hw as ([n sub] & Hw & He). simpl in Hw.
      destruct (os_walk_roots _ _ _ _ Hw) as [rd2 Hrd2].
      rewrite <- app_assoc in Hrd2. apply app_inv_head in Hrd2 as ->.
      intros Hp. apply prefix_cons_inv_1 in Hp as <-.
      assert (sub = File c) as -> by (by eapply NoDup_fst_agree).
      by apply elem_of_nil in Hw.
  - intros [[= Hrd]|Hw]%elem_of_cons.
    + assert (rd = []) as -> by (by eapply app_inv_head; rewrite app_nil_r).
      apply prefix_nil_not.
    + apply list_elem_of_bind in Hw as ([n sub2] & Hw & He). simpl in Hw.
      destruct (os_walk_roots _ _ _ _ Hw) as [rd2 Hrd2].
      pose proof Hrd2 as Hrd2'.
      rewrite <- app_assoc in Hrd2'. apply app_inv_head in Hrd2' as ->.
      intros Hp. pose proof (prefix_cons_inv_1 _ _ _ _ Hp) as <-.
      apply prefix_cons_inv_2 in Hp.
      assert (sub2 = sub) as -> by (by eapply NoDup_fst_agree).
      rewrite Hrd2 in Hw. by eapply IH; [eapply Hsub | |].
Qed.

Lemma parent_mirror (o rd : path) x : parent (o ++ rd ++ [x]) = o ++ rd.
Proof. rewrite app_assoc. apply removelast_last. Qed.

Lemma not_prefix_longer (l k : path) x : ~ l ++ k ++ [x] `prefix_of` l ++ k.
Proof. rewrite app_assoc. apply prefix_snoc_not. Qed.

(** A visit in another directory makes no directory at the mirrored path
    of a file, and the visit of the file itself, if it does not fail, puts
    a regular file there. *)
Lemma visit_file_no_dir env i o pid rd' entry st q :
  ~ q `prefix_of` o ++ rd' ->
  keeps (fun d => is_dir d q = false)
        (visit_file env i o pid (i ++ rd') entry st).
Proof.
  intros Hq. destruct entry as [filename src]. intros d r d' H.
  revert H. unfold visit_file. rewrite <- app_assoc, relative_to_app.
  rewrite parent_mirror. revert d r d'.
  apply keeps_cond; [apply keeps_raise|]. apply keeps_cond.
  - apply keeps_bind; [|intros []; apply keeps_ret].
    apply keeps_anonymize_dicom_file; [|intros; apply keeps_no_dir_write].
    rewrite parent_mirror. unfold os_makedirs.
    destruct (o ++ rd') eqn:E; [apply keeps_raise|].
    by apply keeps_no_dir_mkdirs.
  - apply keeps_bind; [by apply keeps_no_dir_mkdirs|]. intros _.
    apply keeps_bind; [|intros _; apply keeps_ret].
    unfold shutil_copy2. apply keeps_cond; [apply keeps_raise|].
    intros d r d' H. by eapply keeps_no_dir_write.
Qed.



Lemma for_each_preserved_in {A S} (body : A -> S -> io S)
    (Q : S -> disk -> Prop) l :
  (forall x s d s' d',
     x ∈ l -> body x s d = (Returned s', d') -> Q s d -> Q s' d') ->
  forall s d s' d',
    for_each body l s d = (Returned s', d') -> Q s d -> Q s' d'.
Proof.
  induction l as [|x l IH]; intros HQ s d s' d'; simpl.
  - by intros [= <- <-].
  - unfold bind. destruct (body x s d) as [[s1|e] d1] eqn:E; [|done].
    intros H HQs. eapply IH; [|exact H|].
    + intros y s2 d2 s3 d3 Hy. apply HQ. by right.
    + eapply HQ; [by left | exact E | exact HQs].
Qed.

(** [J] holds until the turn of [x0], which sets up [Q]; [Q] holds from
    then on. *)
Lemma for_each_reach {A S} (body : A -> S -> io S)
    (J Q : S -> disk -> Prop) (x0 : A) l :
  (forall x s d s' d',
     x ∈ l -> body x s d = (Returned s', d') -> J s d -> J s' d') ->
  (forall x s d s' d',
     x ∈ l -> body x s d = (Returned s', d') -> Q s d -> Q s' d') ->
  (forall s d s' d', body x0 s d = (Returned s', d') -> J s d -> Q s' d') ->
  x0 ∈ l ->
  forall s d s' d',
    for_each body l s d = (Returned s', d') -> J s d -> Q s' d'.
Proof.
  induction l as [|x l IH]; intros HJ HQ Hmake Hin s d s' d'; simpl.
  - by apply elem_of_nil in Hin.
  - unfold bind. destruct (body x s d) as [[s1|e] d1] eqn:E; [|done].
    intros H HJs. apply elem_of_cons in Hin as [<-|Hin].
    + eapply (for_each_preserved_in body Q l); [|exact H|].
      * intros y s2 d2 s3 d3 Hy. apply HQ. by right.
      * eapply Hmake; [exact E | exact HJs].
    + eapply IH; [| |exact Hmake|exact Hin|exact H|].
      * intros y s2 d2 s3 d3 Hy. apply HJ. by right.
      * intros y s2 d2 s3 d3 Hy. apply HQ. by right.
      * eapply HJ; [by left | exact E | exact HJs].
Qed.

Lemma visit_dir_failed env i o pid listing st d st' d' :
  visit_dir env i o pid listing st d = (Returned st', d') ->
  failed st <= failed st'.
Proof.
  unfold visit_dir. intros H.
  eapply (for_each_preserved _ (fun s _ => failed st <= failed s));
    [|exact H|done].
  intros x s0 d0 s1 d1 Hx Hle. apply visit_file_counts in Hx. lia.
Qed.


End mirror.

(** C3.  When the walk over an existing input root completes, the counters
    it returns add up: total_files = anonymized + failed + skipped, and
    total_files is the number of files the walk listed, each counted once. *)
Theorem counters_add_up (env : environment) (input_dir output_dir : path)
    (patient_id : string) (d : disk) (s : stats) :
  (anonymize_directory env input_dir output_dir patient_id d).1
    = Returned (Some s) ->
  total_files s = anonymized s + failed s + skipped s
  /\ exists t, mount env input_dir = Some t
               /\ total_files s = listed_files (os_walk input_dir t).
Proof.
  unfold anonymize_directory.
  destruct (mount env input_dir) as [t|]; [|done].
  unfold bind. destruct (Path_mkdir env output_dir d) as [[[]|e] d1]; [|done].
  destruct (for_each _ _ _ d1) as [[st|e] d2] eqn:E; [|done].
  simpl. intros [= ->].
  pose proof (for_each_measure
    (visit_dir env input_dir output_dir patient_id)
    total_files (fun x => length x.2)) as Htotal.
  pose proof (for_each_measure
    (visit_dir env input_dir output_dir patient_id)
    (fun st => anonymized st + failed st + skipped st)
    (fun x => length x.2)) as Hsum.
  apply Htotal in E as Ht.
  - apply Hsum in E as Hs.
    + simpl in Ht, Hs. split; [lia|]. exists t. split; [done|].
      unfold listed_files. lia.
    + intros x s0 d0 s' d' H. unfold visit_dir in H.
      apply (for_each_measure _ (fun st => anonymized st + failed st + skipped st)
               (fun _ => 1)) in H.
      * by rewrite sum_list_ones in H.
      * intros y s2 d3 s3 d4 Hy. apply visit_file_counts in Hy. lia.
  - intros x s0 d0 s' d' H. unfold visit_dir in H.
    apply (for_each_measure _ total_files (fun _ => 1)) in H.
    + by rewrite sum_list_ones in H.
    + intros y s2 d3 s3 d4 Hy. apply visit_file_counts in Hy. lia.
Qed.

Lemma counters_add_up_witness :
  let s := {| total_files := 3; anonymized := 2; failed := 0; skipped := 1 |} in
  total_files s = anonymized s + failed s + skipped s
  /\ exists t, mount Sample.clinic ["in"] = Some t
               /\ total_files s = listed_files (os_walk ["in"] t).
Proof.
  intros s.
  apply (counters_add_up Sample.clinic ["in"] ["out"] "ANON_7" ∅ s).
  vm_compute. reflexivity.
Defined.

(** C4.  A file name is DICOM-like exactly when it ends with ".dcm" in any
    letter case or has no dot at all.  Any other name is opaque: the walk
    copies the file as it is to the mirrored path and counts it as copied.
    "scan.dcm" and "IMG001" are DICOM-like, "notes.txt" is opaque. *)
Theorem classification :
  (forall filename,
     is_dicom_name filename = true
     <-> has_dcm_extension filename \/ has_no_dot filename)
  /\ (forall env i o pid root filename src st d st' d',
        is_dicom_name filename = false ->
        visit_file env i o pid root (filename, src) st d = (Returned st', d') ->
        exists rel target,
          relative_to (root ++ [filename]) i = Some rel
          /\ (target = o ++ rel \/ target = (o ++ rel) ++ [filename])
          /\ d' !! target = Some (Regular src)
          /\ skipped st' = skipped st + 1)
  /\ is_dicom_name "scan.dcm" = true
  /\ is_dicom_name "notes.txt" = false
  /\ is_dicom_name "IMG001" = true.
Proof.
  split; [|split; [|by vm_compute]].
  - intros filename. unfold is_dicom_name, has_dcm_extension.
    rewrite orb_true_iff, negb_true_iff, contains_dot_spec.
    rewrite endswith_lower_spec. split.
    + intros [(stem & ext & -> & Hext)|?]; [left|by right].
      apply lower_is_dcm in Hext as (c1 & c2 & c3 & -> & ? & ? & ?).
      by exists stem, c1, c2, c3.
    + intros [(stem & c1 & c2 & c3 & -> & ? & ? & ?)|?]; [left|by right].
      eexists stem, _. split; [done|]. apply lower_is_dcm.
      by exists c1, c2, c3.
  - intros. by eapply visit_file_copies.
Qed.

Lemma classification_witness :
  let run := visit_file Sample.clinic ["in"] ["out"] "ANON_7" ["in"]
               ("notes.txt", Blob "see report") no_stats ∅ in
  run.1 = Returned (count_skipped (count_file no_stats))
  /\ run.2 !! ["out"; "notes.txt"] = Some (Regular (Blob "see report")).
Proof.
  intros run.
  assert (run = (Returned (count_skipped (count_file no_stats)), run.2)) as E.
  { by vm_compute. }
  split; [by rewrite E|].
  destruct classification as (_ & Hcopy & _).
  destruct (Hcopy Sample.clinic ["in"] ["out"] "ANON_7" ["in"] "notes.txt"
              (Blob "see report") no_stats ∅ _ _ eq_refl E)
    as (rel & target & Hrel & Htarget & Hd' & _).
  vm_compute in Hrel. injection Hrel as <-.
  destruct Htarget as [-> | ->]; [exact Hd'|].
  vm_compute in Hd'. discriminate Hd'.
Defined.

(** Whatever sat below the output root before, after a walk that completed
    without a failed file something exists at the output path of every
    input file: the file written, or a directory that was there already. *)
Lemma mirrored_path_exists (env : environment) (input_dir output_dir : path)
    (patient_id : string) (d : disk) (s : stats) (t : tree)
    (p : path) (c : content) :
  mount env input_dir = Some t ->
  (anonymize_directory env input_dir output_dir patient_id d).1
    = Returned (Some s) ->
  failed s = 0 ->
  file_at t p c ->
  path_exists (anonymize_directory env input_dir output_dir patient_id d).2
    (output_dir ++ p) = true.
Proof.
  intros Hmount Hrun Hfailed Hfile.
  revert Hrun. unfold anonymize_directory. rewrite Hmount. unfold bind.
  destruct (Path_mkdir env output_dir d) as [[[]|e] d1] eqn:Emk; [|done].
  destruct (for_each _ _ _ d1) as [[st|e] d2] eqn:E; [|done].
  simpl. intros [= ->].
  destruct (file_at_listed t p c input_dir Hfile)
    as (rd & name & files & -> & Hlisted & Hin).
  set (Q := fun (st : stats) (d : disk) =>
              failed st = 0 ->
              path_exists d (output_dir ++ rd ++ [name]) = true).
  assert (forall x st d st' d',
            visit_file env input_dir output_dir patient_id x.1 x.2 st d
              = (Returned st', d') -> Q st d -> Q st' d') as Hkeep_file.
  { intros [root entry] st0 d0 st' d' H HQ Hf. simpl in H.
    pose proof (visit_file_counts _ _ _ _ _ _ _ _ _ _ H) as (_ & _ & Hle).
    apply (tame_visit_file _ _ _ _ _ _ _ _ _ _ H). apply HQ. lia. }
  assert (forall x st d st' d',
            visit_dir env input_dir output_dir patient_id x st d
              = (Returned st', d') -> Q st d -> Q st' d') as Hkeep_dir.
  { intros x st0 d0 st' d' H. unfold visit_dir in H.
    eapply for_each_preserved; [|exact H].
    intros y st1 d3 st2 d4 Hy. apply (Hkeep_file (x.1, y)), Hy. }
  apply (for_each_established _ Q (input_dir ++ rd, files) Hkeep_dir)
    in E; [by apply E | | done].
  intros st0 d0 st' d' H. unfold visit_dir in H. simpl in H.
  apply (for_each_established _ Q (name, c)) in H; [done | | | done].
  + intros y st1 d3 st2 d4 Hy. apply (Hkeep_file (input_dir ++ rd, y)), Hy.
  + intros st1 d3 st2 d4 Hy Hf.
    apply visit_file_mirrors in Hy; [done|].
    pose proof (visit_file_counts _ _ _ _ _ _ _ _ _ _ Hy) as (_ & _ & Hle).
    lia.
Qed.


Lemma study_wf : wf_tree Sample.study.
Proof.
  apply wf_folder.
  - apply (bool_decide_unpack _). by vm_compute.
  - intros name sub Hin.
    repeat (apply elem_of_cons in Hin as [[= -> ->] | Hin]);
      [apply wf_file | apply wf_file | | by apply elem_of_nil in Hin].
    apply wf_folder.
    + apply (bool_decide_unpack _). by vm_compute.
    + intros name' sub' Hin'.
      apply elem_of_cons in Hin' as [[= -> ->] | Hin']; [apply wf_file|].
      by apply elem_of_nil in Hin'.
Defined.



(* ===================================================================== *)
(** ** main and the exit status *)
(* ===================================================================== *)

Section exit.

(** [main] turns the way the walk ended into a call of [sys.exit]. *)
Lemma main_eq env args d :
  main env args d =
  let walk :=
    anonymize_directory env
      (path_of_string env (or_default (arg_input args) DEFAULT_INPUT_DIR))
      (path_of_string env (or_default (arg_output args) DEFAULT_OUTPUT_DIR))
      (or_default (arg_patient_id args) DEFAULT_PATIENT_ID) d in
  match walk.1 with
  | Returned (Some s) =>
      (Raised (SystemExit (if (failed s =? 0)%nat then 0 else 1)%Z), walk.2)
  | Returned None => (Raised (SystemExit 2), walk.2)
  | Raised KeyboardInterrupt => (Raised (SystemExit 130), walk.2)
  | Raised (Exception _) => (Raised (SystemExit 1), walk.2)
  | Raised (SystemExit code) => (Raised (SystemExit code), walk.2)
  end.
Proof.
  unfold main, bind, print_summary, ret, sys_exit, raise. simpl.
  destruct (anonymize_directory _ _ _ _ d) as [[[s|]|[what| |code]] d1];
    simpl; try done.
  by destruct (failed s =? 0)%nat.
Qed.

Lemma anonymize_directory_missing env i o pid d :
  mount env i = None <->
  (anonymize_directory env i o pid d).1 = Returned None.
Proof.
  unfold anonymize_directory. destruct (mount env i) as [t|]; [|done].
  split; [done|]. unfold bind.
  destruct (Path_mkdir env o d) as [[[]|e] d1]; [|done].
  by destruct (for_each _ _ _ d1) as [[st|e] d2].
Qed.

End exit.

(** C7.  When nothing exists at the input root the walk stops at once: it
    returns no stats at all, leaves the disk as it found it, so that no file
    is processed and the output root is not created, and the process exits
    with status 2. *)
Theorem missing_input_root (env : environment) (args : arguments) (d : disk) :
  let input_dir :=
    path_of_string env (or_default (arg_input args) DEFAULT_INPUT_DIR) in
  let output_dir :=
    path_of_string env (or_default (arg_output args) DEFAULT_OUTPUT_DIR) in
  let patient_id := or_default (arg_patient_id args) DEFAULT_PATIENT_ID in
  mount env input_dir = None ->
  anonymize_directory env input_dir output_dir patient_id d
    = (Returned None, d)
  /\ main env args d = (Raised (SystemExit 2), d)
  /\ exit_status (main env args d).1 = 2%Z
  /\ path_exists (main env args d).2 output_dir = path_exists d output_dir.
Proof.
  intros input_dir output_dir patient_id Hmissing.
  assert (anonymize_directory env input_dir output_dir patient_id d
          = (Returned None, d)) as Hwalk.
  { unfold anonymize_directory. by rewrite Hmissing. }
  assert (main env args d = (Raised (SystemExit 2), d)) as Hmain.
  { rewrite main_eq. fold input_dir output_dir patient_id. by rewrite Hwalk. }
  by rewrite Hmain.
Qed.

Lemma missing_input_root_witness :
  anonymize_directory Sample.clinic ["nowhere"] ["out"] DEFAULT_PATIENT_ID ∅
    = (Returned None, ∅)
  /\ main Sample.clinic Sample.wrong_command_line ∅ = (Raised (SystemExit 2), ∅)
  /\ exit_status (main Sample.clinic Sample.wrong_command_line ∅).1 = 2%Z
  /\ path_exists (main Sample.clinic Sample.wrong_command_line ∅).2 ["out"]
     = path_exists ∅ ["out"].
Proof.
  apply (missing_input_root Sample.clinic Sample.wrong_command_line ∅).
  reflexivity.
Defined.

(** C8.  The exit status is 0 when the walk completed with no failed file,
    1 when it completed with failed files or raised an unexpected error,
    2 when the input directory is missing, 130 when the user interrupted
    the run; there is no other case. *)
Theorem exit_status_table (env : environment) (args : arguments) (d : disk) :
  let input_dir :=
    path_of_string env (or_default (arg_input args) DEFAULT_INPUT_DIR) in
  let output_dir :=
    path_of_string env (or_default (arg_output args) DEFAULT_OUTPUT_DIR) in
  let patient_id := or_default (arg_patient_id args) DEFAULT_PATIENT_ID in
  let status := exit_status (main env args d).1 in
  match (anonymize_directory env input_dir output_dir patient_id d).1 with
  | Returned (Some s) =>
      mount env input_dir <> None
      /\ status = if decide (failed s = 0) then 0%Z else 1%Z
  | Returned None => mount env input_dir = None /\ status = 2%Z
  | Raised (Exception _) => status = 1%Z
  | Raised KeyboardInterrupt => status = 130%Z
  | Raised (SystemExit _) => False
  end.
Proof.
  intros input_dir output_dir patient_id status. subst status.
  rewrite main_eq. fold input_dir output_dir patient_id.
  pose proof (anonymize_directory_missing env input_dir output_dir patient_id d)
    as Hmissing.
  destruct (anonymize_directory env input_dir output_dir patient_id d)
    as [r d1] eqn:E.
  pose proof (tame_anonymize_directory _ _ _ _ _ _ _ E) as [Hexit _].
  simpl in *. destruct r as [[s|]|[what| |code]]; simpl.
  - split.
    + intros H. by apply Hmissing in H.
    + case_decide as Hf.
      * by rewrite Hf.
      * by destruct (failed s) eqn:Ef.
  - split; [by apply Hmissing | done].
  - done.
  - done.
  - by eapply Hexit.
Qed.

(* ===================================================================== *)
(** ** old/anon.py: modify_single_dcm *)
(* ===================================================================== *)

Section in_place.

Variable sys : Old.system.

(** A turn of the loop on an absent tag changes nothing. *)
Lemma modify_loop_absent newvalue tags ds modified g :
  (forall tag, tag ∈ tags -> ds !! tag = None) ->
  foldl (Old.modify_one sys newvalue) (ds, modified, g) tags
  = (ds, modified, g).
Proof.
  induction tags as [|tag tags IH]; intros Habsent; simpl; [done|].
  rewrite (Habsent tag) by left.
  apply IH. intros t Ht. apply Habsent. by right.
Qed.

End in_place.

(** C10.  In the in-place variant, when the file is read and none of the
    listed tags is present in the record, [modify_single_dcm] writes
    nothing: the files are what they were, so the DICOM file is unchanged
    and no .backup sibling appears, and the function returns False. *)
Theorem modify_single_dcm_nothing_to_modify (sys : Old.system)
    (fdcm : string) (tags : list string) (newvalue : string)
    (fs : gmap string content) (g : Old.rng (Old.sys_random sys))
    (ds : dataset) :
  Old.sys_read_denied sys fdcm = false ->
  fs !! fdcm = Some (Dicom ds) ->
  (forall tag, tag ∈ tags -> ds !! tag = None) ->
  Old.modify_single_dcm sys fdcm tags newvalue fs g = (false, fs, g)
  /\ (Old.modify_single_dcm sys fdcm tags newvalue fs g).1.2
       !! (fdcm +:+ ".backup") = fs !! (fdcm +:+ ".backup")
  /\ (Old.modify_single_dcm sys fdcm tags newvalue fs g).1.2 !! fdcm
     = Some (Dicom ds).
Proof.
  intros Hread Hfile Habsent.
  assert (Old.modify_single_dcm sys fdcm tags newvalue fs g = (false, fs, g))
    as H.
  { unfold Old.modify_single_dcm. rewrite Hread, Hfile.
    by rewrite modify_loop_absent. }
  by rewrite H.
Qed.

Lemma modify_single_dcm_nothing_to_modify_witness :
  let fs : gmap string content := {[ "ct/1.dcm" := Dicom Sample.phantom ]} in
  let run :=
    Old.modify_single_dcm Sample.workstation "ct/1.dcm"
      ["PatientName"; "PatientID"; "StudyDate"] "ANON_7" fs 0 in
  run = (false, fs, 0)
  /\ run.1.2 !! ("ct/1.dcm" +:+ ".backup") = fs !! ("ct/1.dcm" +:+ ".backup")
  /\ run.1.2 !! "ct/1.dcm" = Some (Dicom Sample.phantom).
Proof.
  intros fs run.
  apply (modify_single_dcm_nothing_to_modify Sample.workstation "ct/1.dcm"
           ["PatientName"; "PatientID"; "StudyDate"] "ANON_7" fs 0
           Sample.phantom).
  - reflexivity.
  - apply lookup_singleton_eq.
  - intros tag Htag.
    repeat (apply elem_of_cons in Htag as [-> | Htag]; [by vm_compute|]).
    by apply elem_of_nil in Htag.
Defined.

(* ===================================================================== *)
(** ** Sample runs *)
(* ===================================================================== *)

(** The value assigned to each attribute of the policy table, in order. *)
Example new_value_table :
  map (fun t => new_value t "ID7") TAGS_TO_ANONYMIZE =
  [ "ID7"; "ID7"; "19000101"; "O"; "000Y";
    ""; ""; "";
    "ANONYMIZED"; ""; "ANONYMIZED";
    "ANONYMIZED"; "ANONYMIZED"; "ID7";
    "ANONYMIZED"; "ANONYMIZED"; ""; "";
    "20000101"; "20000101"; "20000101"; "20000101";
    "120000"; "120000"; "120000"; "120000" ].
Proof. vm_compute. reflexivity. Qed.

(** The sample study is mirrored file by file and the run exits with 0. *)
Example clinic_run_status :
  exit_status (main Sample.clinic Sample.command_line ∅).1 = 0%Z.
Proof. vm_compute. reflexivity. Qed.

Example clinic_run_outputs :
  let d' := (main Sample.clinic Sample.command_line ∅).2 in
  d' !! ["out"] = Some Directory
  /\ d' !! ["out"; "scan.dcm"]
     = Some (Regular (Dicom (anonymize_tags Sample.picky_codec "ANON_7"
                               Sample.patient)))
  /\ d' !! ["out"; "notes.txt"] = Some (Regular (Blob "see report"))
  /\ d' !! ["out"; "series1"] = Some Directory
  /\ d' !! ["out"; "series1"; "IMG001"]
     = Some (Regular (Dicom (anonymize_tags Sample.picky_codec "ANON_7"
                               Sample.patient))).
Proof. vm_compute. repeat split. Qed.

(** A bare output file name has no parent directory to create:
    [os.makedirs('')] raises and the file counts as failed. *)
Example bare_output_name_fails :
  anonymize_dicom_file Sample.clinic ["in"; "scan.dcm"] (Dicom Sample.patient)
    ["scan.dcm"] "ANON_7" ∅ = (Returned false, ∅).
Proof. vm_compute. reflexivity. Qed.

(** Ctrl-C at the second file: the walk stops and the status is 130. *)
Example interrupted_run_status :
  let env :=
    {| codec := codec Sample.clinic; mount := mount Sample.clinic;
       path_of_string := path_of_string Sample.clinic;
       read_denied := read_denied Sample.clinic;
       write_denied := write_denied Sample.clinic;
       interrupted := fun p => bool_decide (p = ["in"; "notes.txt"]) |} in
  exit_status (main env Sample.command_line ∅).1 = 130%Z.
Proof. vm_compute. reflexivity. Qed.

(** An unreadable DICOM file is counted as failed and the status is 1. *)
Example failed_file_status :
  let env :=
    {| codec := codec Sample.clinic; mount := mount Sample.clinic;
       path_of_string := path_of_string Sample.clinic;
       read_denied := fun p => bool_decide (p = ["in"; "scan.dcm"]);
       write_denied := write_denied Sample.clinic;
       interrupted := interrupted Sample.clinic |} in
  (anonymize_directory env ["in"] ["out"] "ANON_7" ∅).1
    = Returned (Some {| total_files := 3; anonymized := 1;
                        failed := 1; skipped := 1 |})
  /\ exit_status (main env Sample.command_line ∅).1 = 1%Z.
Proof. vm_compute. split; reflexivity. Qed.

(** A copy that cannot be written is an unexpected error: status 1. *)
Example copy_error_status :
  let env :=
    {| codec := codec Sample.clinic; mount := mount Sample.clinic;
       path_of_string := path_of_string Sample.clinic;
       read_denied := read_denied Sample.clinic;
       write_denied := fun p => bool_decide (p = ["out"; "notes.txt"]);
       interrupted := interrupted Sample.clinic |} in
  exit_status (main env Sample.command_line ∅).1 = 1%Z.
Proof. vm_compute. reflexivity. Qed.

(* ===================================================================== *)
(** ** More about the rewriter and the walk *)
(* ===================================================================== *)

Section more_walk.

Lemma anonymize_dicom_file_returns env ip src op pid d :
  exists ok d', anonymize_dicom_file env ip src op pid d = (Returned ok, d').
Proof.
  rewrite anonymize_dicom_file_eq.
  destruct (read_denied env ip); [by eexists _, _|].
  destruct src as [ds|b]; [|by eexists _, _].
  destruct (persist _ _ op d) as [[[]|e] d1]; by eexists _, _.
Qed.

Lemma count_names_sum (f : string -> bool) files :
  sum_list (map (fun e : string * content => if f e.1 then 1 else 0) files)
  = count_names f files.
Proof. induction files as [|[name c] files IH]; simpl; [done | by rewrite IH]. Qed.

(** One visited file goes to the counter of its class. *)
Lemma visit_file_class env i o pid root name src st d st' d' :
  visit_file env i o pid root (name, src) st d = (Returned st', d') ->
  skipped st' = skipped st + (if negb (is_dicom_name name) then 1 else 0)
  /\ anonymized st' + failed st'
     = anonymized st + failed st + (if is_dicom_name name then 1 else 0).
Proof.
  unfold visit_file.
  destruct (interrupted env (root ++ [name])); [done|].
  destruct (relative_to _ _) as [rel|]; [|done].
  destruct (is_dicom_name name); unfold bind.
  - destruct (anonymize_dicom_file _ _ _ _ _ d) as [[[]|e] d1]; [| |done];
      intros [= <- <-]; simpl; lia.
  - destruct (Path_mkdir _ _ d) as [[[]|e] d1]; [|done].
    destruct (shutil_copy2 _ _ _ _ _ d1) as [[[]|e] d2]; [|done].
    intros [= <- <-]; simpl; lia.
Qed.

Lemma only_exceptions_ret {A} (a : A) : only_exceptions (ret a).
Proof. intros d r d' [= <- <-] e. discriminate. Qed.

Lemma only_exceptions_raise {A} what :
  only_exceptions (@raise A (Exception what)).
Proof. intros d r d' [= <- <-] e [= <-]. by eexists. Qed.

Lemma only_exceptions_bind {A B} (m : io A) (k : A -> io B) :
  only_exceptions m -> (forall a, only_exceptions (k a)) ->
  only_exceptions (bind m k).
Proof.
  intros Hm Hk d r d'. unfold bind.
  destruct (m d) as [[a|e0] d1] eqn:E.
  - apply Hk.
  - intros [= <- <-] e [= <-]. by eapply Hm.
Qed.

Lemma only_exceptions_for_each {A S} (body : A -> S -> io S) l :
  (forall x s, x ∈ l -> only_exceptions (body x s)) ->
  forall s, only_exceptions (for_each body l s).
Proof.
  induction l as [|x l IH]; intros Hb s; simpl.
  - apply only_exceptions_ret.
  - apply only_exceptions_bind; [apply Hb; by left|].
    intros s'. apply IH. intros y s0 Hy. apply Hb. by right.
Qed.

Lemma only_exceptions_mkdirs env made todo :
  only_exceptions (mkdirs_from env made todo).
Proof. intros d r d' H e ->. by eapply mkdirs_from_raised. Qed.

Lemma only_exceptions_write env p c : only_exceptions (write_file env p c).
Proof. intros d r d' H e ->. by apply write_file_raised in H as [_ ?]. Qed.

Lemma only_exceptions_copy env sp name src dst :
  only_exceptions (shutil_copy2 env sp name src dst).
Proof.
  unfold shutil_copy2. destruct (read_denied env sp).
  - apply only_exceptions_raise.
  - intros d r d' H. by eapply only_exceptions_write.
Qed.

(** Short of a Ctrl-C, a visit raises nothing but an [Exception]. *)
Lemma only_exceptions_visit_file env i o pid root entry st :
  interrupted env (root ++ [entry.1]) = false ->
  only_exceptions (visit_file env i o pid root entry st).
Proof.
  destruct entry as [name src]. simpl. intros Hint.
  unfold visit_file. rewrite Hint.
  destruct (relative_to _ _) as [rel|]; [|apply only_exceptions_raise].
  destruct (is_dicom_name name).
  - intros d r d'. unfold bind.
    destruct (anonymize_dicom_file_returns env (root ++ [name]) src
                (o ++ rel) pid d) as (ok & d1 & ->).
    destruct ok; intros [= <- <-] e; discriminate.
  - apply only_exceptions_bind; [apply only_exceptions_mkdirs|]. intros _.
    apply only_exceptions_bind; [apply only_exceptions_copy|]. intros _.
    apply only_exceptions_ret.
Qed.

(** A loop stops at the first turn that raises. *)
Lemma for_each_raises {A S} (body : A -> S -> io S) (x0 : A) l :
  (forall x s, x ∈ l -> only_exceptions (body x s)) ->
  (forall s d, exists e d', body x0 s d = (Raised e, d')) ->
  x0 ∈ l ->
  forall s d, exists what d',
    for_each body l s d = (Raised (Exception what), d').
Proof.
  induction l as [|x l IH]; intros Hb Hbad Hin s d; simpl.
  - by apply elem_of_nil in Hin.
  - unfold bind. destruct (body x s d) as [[s1|e] d1] eqn:E.
    + apply elem_of_cons in Hin as [<-|Hin].
      * destruct (Hbad s d) as (e & d' & Hbad'). congruence.
      * apply IH; [|done|done]. intros y s0 Hy. apply Hb. by right.
    + destruct (Hb x s (list_elem_of_here _ _) _ _ _ E e eq_refl) as [what ->].
      by eexists _, _.
Qed.

(** A loop over nothing but empty listings changes nothing. *)
Lemma for_each_nothing_listed env i o pid l st d :
  listed_files l = 0 ->
  for_each (visit_dir env i o pid) l st d = (Returned st, d).
Proof.
  unfold listed_files. induction l as [|[root files] l IH]; simpl; [done|].
  intros H. destruct files as [|f files]; [|simpl in H; lia].
  unfold bind, visit_dir. simpl. apply IH. simpl in H. lia.
Qed.

Lemma is_dir_insert_directory (d : disk) p q :
  is_dir d q = true -> is_dir (<[p := Directory]> d) q = true.
Proof.
  destruct (decide (p = q)) as [->|Hne]; [|by rewrite is_dir_insert_ne].
  intros _. unfold is_dir. rewrite lookup_insert_eq.
  destruct q; [done|]. by case_bool_decide.
Qed.

Lemma is_dir_insert_directory_eq (d : disk) p :
  is_dir (<[p := Directory]> d) p = true.
Proof.
  unfold is_dir. rewrite lookup_insert_eq.
  destruct p; [done|]. by case_bool_decide.
Qed.

(** Directories stay directories. *)
Lemma keeps_dir_mkdirs env made todo q :
  keeps (fun d => is_dir d q = true) (mkdirs_from env made todo).
Proof.
  revert made. induction todo as [|name rest IH]; intros made; simpl.
  - apply keeps_ret.
  - intros d r d'. destruct (is_dir d (made ++ [name])); [by apply IH|].
    destruct (d !! (made ++ [name])); [by intros [= <- <-]|].
    destruct (write_denied env (made ++ [name])); [by intros [= <- <-]|].
    intros H Hd. eapply IH; [done|]. by apply is_dir_insert_directory.
Qed.

(** After [mkdirs_from] has returned, the directory asked for is there. *)
Lemma mkdirs_from_made env made todo d d' :
  mkdirs_from env made todo d = (Returned tt, d') ->
  is_dir d made = true ->
  is_dir d' (made ++ todo) = true.
Proof.
  revert made d. induction todo as [|name rest IH]; intros made d; simpl.
  - intros [= <-]. by rewrite app_nil_r.
  - replace (made ++ name :: rest) with ((made ++ [name]) ++ rest)
      by (by rewrite <- app_assoc).
    destruct (is_dir d (made ++ [name])) eqn:Hd; [by intros; eapply IH|].
    destruct (d !! (made ++ [name])); [done|].
    destruct (write_denied env (made ++ [name])); [done|].
    intros H _. eapply IH; [done|]. apply is_dir_insert_directory_eq.
Qed.

End more_walk.

(** X1.  What the rewriter saves differs from the record it read only in
    the attributes of the policy table: every other attribute keeps its
    value, and no attribute is added or removed. *)
Theorem other_attributes_survive (env : environment) (input_path : path)
    (ds : dataset) (output_path : path) (patient_id : string)
    (d d' : disk) (tag : string) :
  tag ∉ TAGS_TO_ANONYMIZE ->
  anonymize_dicom_file env input_path (Dicom ds) output_path patient_id d
    = (Returned true, d') ->
  exists ds',
    d' !! output_path = Some (Regular (Dicom ds'))
    /\ ds' !! tag = ds !! tag
    /\ dom ds' = dom ds.
Proof.
  intros Htag. rewrite anonymize_dicom_file_eq.
  destruct (read_denied env input_path); [done|].
  destruct (persist _ _ _ d) as [[[]|e] d1] eqn:E; [|done].
  intros [= <-]. eexists. split; [by eapply persist_returned|]. split.
  - rewrite anonymize_tags_lookup. by rewrite bool_decide_eq_false_2.
  - apply anonymize_tags_dom.
Qed.

Lemma other_attributes_survive_witness :
  exists ds',
    (anonymize_dicom_file Sample.clinic ["in"; "scan.dcm"]
       (Dicom Sample.patient) ["out"; "scan.dcm"] "ANON_7" ∅).2
      !! ["out"; "scan.dcm"] = Some (Regular (Dicom ds'))
    /\ ds' !! "Modality" = Sample.patient !! "Modality"
    /\ dom ds' = dom Sample.patient.
Proof.
  apply (other_attributes_survive Sample.clinic ["in"; "scan.dcm"]
           Sample.patient ["out"; "scan.dcm"] "ANON_7" ∅ _ "Modality").
  - apply (bool_decide_unpack _). by vm_compute.
  - by vm_compute.
Defined.

(** X2.  A DICOM-like file never stops the walk: unless the user
    interrupts, its visit returns, and it counts the file as anonymized or
    as failed according to what [anonymize_dicom_file] returned, which is
    always a boolean and never an exception. *)
Theorem dicom_like_never_aborts (env : environment) (i o : path)
    (pid : string) (rd : path) (name : string) (src : content)
    (st : stats) (d : disk) :
  is_dicom_name name = true ->
  interrupted env (i ++ rd ++ [name]) = false ->
  exists ok d',
    anonymize_dicom_file env (i ++ rd ++ [name]) src (o ++ rd ++ [name]) pid d
      = (Returned ok, d')
    /\ visit_file env i o pid (i ++ rd) (name, src) st d
       = (Returned (if ok then count_anonymized (count_file st)
                    else count_failed (count_file st)), d').
Proof.
  intros Hname Hint.
  destruct (anonymize_dicom_file_returns env (i ++ rd ++ [name]) src
              (o ++ rd ++ [name]) pid d) as (ok & d' & H).
  exists ok, d'. split; [done|].
  unfold visit_file. rewrite <- app_assoc, Hint, relative_to_app, Hname.
  unfold bind. rewrite H. by destruct ok.
Qed.

Lemma dicom_like_never_aborts_witness :
  exists ok d',
    anonymize_dicom_file Sample.clinic (["in"] ++ [] ++ ["README"])
      (Blob "hello") (["out"] ++ [] ++ ["README"]) "ANON_7" ∅
      = (Returned ok, d')
    /\ visit_file Sample.clinic ["in"] ["out"] "ANON_7" (["in"] ++ [])
         ("README", Blob "hello") no_stats ∅
       = (Returned (if ok then count_anonymized (count_file no_stats)
                    else count_failed (count_file no_stats)), d').
Proof.
  apply (dicom_like_never_aborts Sample.clinic ["in"] ["out"] "ANON_7" []
           "README" (Blob "hello") no_stats ∅).
  - by vm_compute.
  - reflexivity.
Defined.

(** X3.  A copy that fails does stop the walk: when an opaque file of the
    tree cannot be read and nobody interrupts, [anonymize_directory] ends
    with the exception and returns no stats. *)
Theorem copy_failure_stops_walk (env : environment) (i o : path)
    (pid : string) (d : disk) (t : tree) (p : path) (name : string)
    (c : content) :
  mount env i = Some t ->
  file_at t p c ->
  last p = Some name ->
  is_dicom_name name = false ->
  read_denied env (i ++ p) = true ->
  (forall q, interrupted env q = false) ->
  exists what d',
    anonymize_directory env i o pid d = (Raised (Exception what), d').
Proof.
  intros Hmount Hfile Hlast Hname Hread Hint.
  destruct (file_at_listed t p c i Hfile)
    as (rd & name' & files & -> & Hlisted & Hin).
  rewrite last_snoc in Hlast. injection Hlast as ->.
  unfold anonymize_directory. rewrite Hmount. unfold bind.
  destruct (Path_mkdir env o d) as [[[]|e] d1] eqn:Emk.
  2:{ destruct (mkdirs_from_raised _ _ _ _ _ _ Emk) as [what ->].
      by eexists _, _. }
  assert (forall x s, only_exceptions (visit_dir env i o pid x s)) as Honly.
  { intros x s. apply only_exceptions_for_each. intros y s0 _.
    apply only_exceptions_visit_file, Hint. }
  destruct (for_each_raises (visit_dir env i o pid) (i ++ rd, files)
              (os_walk i t)) with (s := no_stats) (d := d1)
    as (what & d' & ->); [by intros | | done | by eexists _, _].
  intros s d0. unfold visit_dir. simpl.
  destruct (for_each_raises (visit_file env i o pid (i ++ rd)) (name, c) files)
    with (s := s) (d := d0) as (what & d' & ->); [| | done | by eexists _, _].
  - intros y s0 _. apply only_exceptions_visit_file, Hint.
  - intros s0 d2. unfold visit_file.
    rewrite <- app_assoc, Hint, relative_to_app, Hname. unfold bind.
    destruct (Path_mkdir env _ d2) as [[[]|e] d3]; [|by eexists _, _].
    unfold shutil_copy2. rewrite Hread. by eexists _, _.
Qed.

(** X4.  When the walk completes, the files it copied are exactly the
    listed files with an opaque name, and the files it anonymized or
    counted as failed are exactly those with a DICOM-like name. *)
Theorem counters_by_class (env : environment) (input_dir output_dir : path)
    (patient_id : string) (d : disk) (s : stats) :
  (anonymize_directory env input_dir output_dir patient_id d).1
    = Returned (Some s) ->
  exists t,
    mount env input_dir = Some t
    /\ skipped s = listed_opaque (os_walk input_dir t)
    /\ anonymized s + failed s = listed_dicom (os_walk input_dir t).
Proof.
  unfold anonymize_directory.
  destruct (mount env input_dir) as [t|]; [|done].
  unfold bind. destruct (Path_mkdir env output_dir d) as [[[]|e] d1]; [|done].
  destruct (for_each _ _ _ d1) as [[st|e] d2] eqn:E; [|done].
  simpl. intros [= ->]. exists t. split; [done|]. split.
  - apply (for_each_measure _ skipped
             (fun x => count_names (fun n => negb (is_dicom_name n)) x.2))
      in E as ->; [done|].
    intros x s0 d0 s1 d3 H. unfold visit_dir in H.
    apply (for_each_measure _ skipped
             (fun e => if negb (is_dicom_name e.1) then 1 else 0)) in H.
    + by rewrite (count_names_sum (fun n => negb (is_dicom_name n))) in H.
    + intros [name c] s2 d4 s3 d5 Hy. by apply visit_file_class in Hy as [? _].
  - apply (for_each_measure _ (fun st => anonymized st + failed st)
             (fun x => count_names is_dicom_name x.2))
      in E as ->; [done|].
    intros x s0 d0 s1 d3 H. unfold visit_dir in H.
    apply (for_each_measure _ (fun st => anonymized st + failed st)
             (fun e => if is_dicom_name e.1 then 1 else 0)) in H.
    + by rewrite (count_names_sum is_dicom_name) in H.
    + intros [name c] s2 d4 s3 d5 Hy. by apply visit_file_class in Hy as [_ ?].
Qed.

Lemma counters_by_class_witness :
  let s := {| total_files := 3; anonymized := 2; failed := 0; skipped := 1 |} in
  exists t,
    mount Sample.clinic ["in"] = Some t
    /\ skipped s = listed_opaque (os_walk ["in"] t)
    /\ anonymized s + failed s = listed_dicom (os_walk ["in"] t).
Proof.
  intros s.
  apply (counters_by_class Sample.clinic ["in"] ["out"] "ANON_7" ∅ s).
  vm_compute. reflexivity.
Defined.

Lemma copy_failure_stops_walk_witness :
  exists what d',
    anonymize_directory Cases.locked_notes ["in"] ["out"] "ANON_7" ∅
    = (Raised (Exception what), d').
Proof.
  apply (copy_failure_stops_walk Cases.locked_notes ["in"] ["out"] "ANON_7" ∅
           Sample.study ["notes.txt"] "notes.txt" (Blob "see report")).
  - reflexivity.
  - apply file_here. right. left.
  - reflexivity.
  - by vm_compute.
  - by vm_compute.
  - reflexivity.
Defined.

(** X5.  An input path that exists but lists no file, a regular file or a
    tree of empty directories, is no error: once the output root is made,
    the walk returns counters that are all zero and the exit status is 0. *)
Theorem nothing_to_walk (env : environment) (args : arguments) (d d1 : disk)
    (t : tree) :
  let input_dir :=
    path_of_string env (or_default (arg_input args) DEFAULT_INPUT_DIR) in
  let output_dir :=
    path_of_string env (or_default (arg_output args) DEFAULT_OUTPUT_DIR) in
  let patient_id := or_default (arg_patient_id args) DEFAULT_PATIENT_ID in
  mount env input_dir = Some t ->
  listed_files (os_walk input_dir t) = 0 ->
  Path_mkdir env output_dir d = (Returned tt, d1) ->
  anonymize_directory env input_dir output_dir patient_id d
    = (Returned (Some no_stats), d1)
  /\ is_dir d1 output_dir = true
  /\ exit_status (main env args d).1 = 0%Z.
Proof.
  intros input_dir output_dir patient_id Hmount Hnone Hmk.
  assert (anonymize_directory env input_dir output_dir patient_id d
          = (Returned (Some no_stats), d1)) as Hwalk.
  { unfold anonymize_directory. rewrite Hmount. unfold bind. rewrite Hmk.
    by rewrite for_each_nothing_listed. }
  split; [done|]. split.
  - by apply (mkdirs_from_made env [] output_dir d d1).
  - rewrite main_eq. fold input_dir output_dir patient_id. by rewrite Hwalk.
Qed.

Lemma nothing_to_walk_witness :
  anonymize_directory Cases.single_file ["in"] ["out"] "ANON_7" ∅
    = (Returned (Some no_stats), {[ ["out"] := Directory ]})
  /\ is_dir {[ ["out"] := Directory ]} ["out"] = true
  /\ exit_status (main Cases.single_file Sample.command_line ∅).1 = 0%Z.
Proof.
  apply (nothing_to_walk Cases.single_file Sample.command_line ∅
           {[ ["out"] := Directory ]} (File (Dicom Sample.patient))).
  - reflexivity.
  - reflexivity.
  - by vm_compute.
Defined.

(** X6.  A file whose name is DICOM-like but whose content the codec
    cannot parse (a README, a LICENSE) is counted as failed: a walk that
    completes over a tree holding one reports at least one failure, and the
    exit status is 1. *)
Theorem unparsable_dicom_like_fails (env : environment) (args : arguments)
    (d : disk) (s : stats) (t : tree) (p : path) (name bytes : string) :
  let input_dir :=
    path_of_string env (or_default (arg_input args) DEFAULT_INPUT_DIR) in
  let output_dir :=
    path_of_string env (or_default (arg_output args) DEFAULT_OUTPUT_DIR) in
  let patient_id := or_default (arg_patient_id args) DEFAULT_PATIENT_ID in
  mount env input_dir = Some t ->
  (anonymize_directory env input_dir output_dir patient_id d).1
    = Returned (Some s) ->
  file_at t p (Blob bytes) ->
  last p = Some name ->
  is_dicom_name name = true ->
  1 <= failed s /\ exit_status (main env args d).1 = 1%Z.
Proof.
  intros input_dir output_dir patient_id Hmount Hrun Hfile Hlast Hname.
  assert (1 <= failed s) as Hfailed.
  { revert Hrun. unfold anonymize_directory. rewrite Hmount. unfold bind.
    destruct (Path_mkdir env output_dir d) as [[[]|e] d1]; [|done].
    destruct (for_each _ _ _ d1) as [[st|e] d2] eqn:E; [|done].
    simpl. intros [= ->].
    destruct (file_at_listed t p _ input_dir Hfile)
      as (rd & name' & files & -> & Hlisted & Hin).
    rewrite last_snoc in Hlast. injection Hlast as ->.
    set (Q := fun (st : stats) (_ : disk) => 1 <= failed st).
    assert (forall root x st d st' d',
              visit_file env input_dir output_dir patient_id root x st d
                = (Returned st', d') -> Q st d -> Q st' d') as Hkeep.
    { intros root x st0 d0 st' d' H HQ. unfold Q in *.
      apply visit_file_counts in H. lia. }
    apply (for_each_established _ Q (input_dir ++ rd, files)) in E;
      [done | | | done].
    - intros x st0 d0 st' d' H. unfold visit_dir in H.
      eapply for_each_preserved; [|exact H]. intros y. apply Hkeep.
    - intros st0 d0 st' d' H. unfold visit_dir in H. simpl in H.
      apply (for_each_established _ Q (name, Blob bytes)) in H;
        [done | apply Hkeep | | done].
      intros st1 d3 st2 d4. unfold visit_file.
      rewrite <- app_assoc, relative_to_app, Hname.
      destruct (interrupted env _); [done|]. unfold bind.
      rewrite anonymize_dicom_file_eq.
      destruct (read_denied env _); intros [= <- <-]; unfold Q; simpl; lia. }
  split; [done|].
  rewrite main_eq. fold input_dir output_dir patient_id.
  destruct (anonymize_directory env input_dir output_dir patient_id d)
    as [r d']. simpl in *. subst r.
  destruct (failed s) eqn:Ef; [lia | done].
Qed.

Lemma unparsable_dicom_like_fails_witness :
  1 <= failed {| total_files := 2; anonymized := 1; failed := 1; skipped := 0 |}
  /\ exit_status (main Cases.documented Sample.command_line ∅).1 = 1%Z.
Proof.
  apply (unparsable_dicom_like_fails Cases.documented Sample.command_line ∅
           {| total_files := 2; anonymized := 1; failed := 1; skipped := 0 |}
           Cases.documented_study ["README"] "README"
           "how to read this study").
  - reflexivity.
  - by vm_compute.
  - apply file_here. left.
  - reflexivity.
  - by vm_compute.
Defined.

(* ===================================================================== *)
(** ** Where the walk writes, and what *)
(* ===================================================================== *)

Section footprint.

(** [mkdirs_from] changes a path only by making it a directory, and only
    on the way to the directory asked for. *)
Lemma mkdirs_from_lookup env made todo d r d' q :
  mkdirs_from env made todo d = (r, d') ->
  touched_only_towards d (made ++ todo) q d'.
Proof.
  revert made d. induction todo as [|name rest IH]; intros made d; simpl.
  - intros [= <- <-]. by left.
  - replace (made ++ name :: rest) with ((made ++ [name]) ++ rest)
      by (by rewrite <- app_assoc).
    destruct (is_dir d (made ++ [name])); [apply IH|].
    destruct (d !! (made ++ [name])) eqn:E; [intros [= <- <-]; by left|].
    destruct (write_denied env (made ++ [name])); [intros [= <- <-]; by left|].
    intros H. apply IH in H as [H | (H1 & H2 & H3)].
    + destruct (decide (made ++ [name] = q)) as [<-|Hne].
      * right. rewrite lookup_insert_eq in H. split; [done|]. split; [done|].
        by exists rest.
      * left. by rewrite lookup_insert_ne in H.
    + right. split; [|done].
      destruct (decide (made ++ [name] = q)) as [<-|Hne]; [done|].
      by rewrite lookup_insert_ne in H1.
Qed.

Lemma towards_parent (o rel q : path) :
  q `prefix_of` parent (o ++ rel) -> ~ o `prefix_of` q -> q `prefix_of` o.
Proof.
  intros Hq Ho. unfold parent in Hq.
  destruct rel as [|x rel].
  - rewrite app_nil_r in Hq. destruct Hq as [k Hk].
    destruct (exists_last (l := o)) as (o' & y & ->).
    { intros ->. simpl in Hk. symmetry in Hk.
      apply app_eq_nil in Hk as [-> _]. apply Ho. by exists []. }
    rewrite removelast_last in Hk. exists (k ++ [y]).
    by rewrite Hk, <- app_assoc.
  - rewrite removelast_app in Hq by done.
    destruct (prefix_weak_total q o (o ++ removelast (x :: rel)))
      as [H|H]; [done | by eexists | done | done].
Qed.

Lemma keeps_towards_mkdirs env d0 o rel q :
  ~ o `prefix_of` q ->
  keeps (touched_only_towards d0 o q) (mkdirs_from env [] (parent (o ++ rel))).
Proof.
  intros Ho d r d' H HI.
  apply (mkdirs_from_lookup _ _ _ _ _ _ q) in H. simpl in H.
  destruct HI as [HI | (H1 & H2 & H3)]; destruct H as [H | (H4 & H5 & H6)].
  - left. congruence.
  - right. split; [congruence|]. split; [done|]. by eapply towards_parent.
  - right. split; [done|]. split; [congruence | done].
  - congruence.
Qed.

Lemma keeps_towards_write env d0 o q p c :
  ~ o `prefix_of` q -> o `prefix_of` p ->
  keeps (touched_only_towards d0 o q) (write_file env p c).
Proof.
  intros Ho Hp d [[]|e] d' H HI.
  - apply write_file_returned in H as ->.
    assert (p <> q) as Hne by (by intros ->).
    unfold touched_only_towards in *. by rewrite lookup_insert_ne.
  - by apply write_file_raised in H as [-> _].
Qed.

(** The same as [keeps_visit_file], for a property that only writes at or
    below the output root keep. *)
Lemma keeps_visit_file_below I env i o pid root filename src st :
  (forall rel, keeps I (mkdirs_from env [] (parent (o ++ rel)))) ->
  (forall p c, o `prefix_of` p -> keeps I (write_file env p c)) ->
  keeps I (visit_file env i o pid root (filename, src) st).
Proof.
  intros Hmk Hwr. unfold visit_file.
  apply keeps_cond; [apply keeps_raise|].
  destruct (relative_to _ _) as [rel|]; [|apply keeps_raise].
  apply keeps_cond.
  - apply keeps_bind.
    + apply keeps_anonymize_dicom_file.
      * unfold os_makedirs. destruct (parent (o ++ rel)) eqn:E.
        -- apply keeps_raise.
        -- rewrite <- E. apply Hmk.
      * intros c. apply Hwr. by exists rel.
    + intros []; apply keeps_ret.
  - apply keeps_bind; [apply Hmk|]. intros _. apply keeps_bind.
    + unfold shutil_copy2. apply keeps_cond; [apply keeps_raise|].
      intros d r d' H. eapply Hwr; [|exact H].
      destruct (is_dir d (o ++ rel)).
      * exists (rel ++ [filename]). by rewrite app_assoc.
      * by exists rel.
    + intros _. apply keeps_ret.
Qed.

(** What one visit does to a path. *)
Lemma visit_file_lookup env i o pid rd name src st d r d' q :
  visit_file env i o pid (i ++ rd) (name, src) st d = (r, d') ->
  touched_only_towards d (o ++ rd) q d'
  \/ (q = o ++ rd ++ [name]
      /\ d' !! q = Some (Regular (mirror_of (codec env) pid name src)))
  \/ (q = (o ++ rd ++ [name]) ++ [name]
      /\ d' !! q = Some (Regular src)).
Proof.
  unfold visit_file. rewrite <- app_assoc, relative_to_app.
  destruct (interrupted env _); [intros [= <- <-]; left; by left|].
  unfold mirror_of. destruct (is_dicom_name name); unfold bind.
  - rewrite anonymize_dicom_file_eq.
    assert (forall b : bool, (Returned (if b then count_anonymized (count_file st)
                              else count_failed (count_file st)), d)
                             = (r, d') ->
            touched_only_towards d (o ++ rd) q d') as Hsame.
    { intros b [= <- <-]. by left. }
    destruct (read_denied env _); [intros H; left; by apply (Hsame false)|].
    destruct src as [ds|b]; [|intros H; left; by apply (Hsame false)].
    unfold persist, bind, os_makedirs, save_as. rewrite parent_mirror.
    destruct (o ++ rd) as [|x l] eqn:Eo.
    { intros [= <- <-]. left. by left. }
    rewrite <- Eo.
    destruct (mkdirs_from env [] (o ++ rd) d) as [[[]|e] d1] eqn:Emk.
    + apply (mkdirs_from_lookup _ _ _ _ _ _ q) in Emk. simpl in Emk.
      destruct (write_file env _ _ d1) as [[[]|e] d2] eqn:Ew.
      * intros [= <- <-]. apply write_file_returned in Ew as ->.
        destruct (decide (o ++ rd ++ [name] = q)) as [<-|Hne].
        -- right; left. split; [done|]. apply lookup_insert_eq.
        -- left. unfold touched_only_towards in *.
           by rewrite lookup_insert_ne.
      * intros [= <- <-]. apply write_file_raised in Ew as [-> _]. by left.
    + intros [= <- <-]. left.
      by apply (mkdirs_from_lookup _ _ _ _ _ _ q) in Emk.
  - rewrite parent_mirror. unfold Path_mkdir.
    destruct (mkdirs_from env [] (o ++ rd) d) as [[[]|e] d1] eqn:Emk.
    + apply (mkdirs_from_lookup _ _ _ _ _ _ q) in Emk. simpl in Emk.
      unfold shutil_copy2.
      destruct (read_denied env _); [intros [= <- <-]; by left|].
      destruct (write_file env _ src d1) as [[[]|e] d2] eqn:Ew.
      * intros [= <- <-]. apply write_file_returned in Ew as ->.
        destruct (is_dir d1 (o ++ rd ++ [name])).
        -- destruct (decide ((o ++ rd ++ [name]) ++ [name] = q)) as [<-|Hne].
           ++ right; right. split; [done|]. apply lookup_insert_eq.
           ++ left. unfold touched_only_towards in *.
              by rewrite lookup_insert_ne.
        -- destruct (decide (o ++ rd ++ [name] = q)) as [<-|Hne].
           ++ right; left. split; [done|]. apply lookup_insert_eq.
           ++ left. unfold touched_only_towards in *.
              by rewrite lookup_insert_ne.
      * intros [= <- <-]. apply write_file_raised in Ew as [-> _]. by left.
    + intros [= <- <-]. left.
      by apply (mkdirs_from_lookup _ _ _ _ _ _ q) in Emk.
Qed.

(** A visit that does not count a failure leaves at the mirrored path,
    if no directory sat there, what [mirror_of] says. *)
Lemma visit_file_writes_content env i o pid rd name src st d st' d' :
  visit_file env i o pid (i ++ rd) (name, src) st d = (Returned st', d') ->
  failed st' = failed st ->
  is_dir d (o ++ rd ++ [name]) = false ->
  d' !! (o ++ rd ++ [name])
  = Some (Regular (mirror_of (codec env) pid name src)).
Proof.
  unfold visit_file, mirror_of. rewrite <- app_assoc, relative_to_app.
  destruct (interrupted env _); [done|]. unfold bind.
  destruct (is_dicom_name name).
  - rewrite anonymize_dicom_file_eq.
    destruct (read_denied env _); [intros [= <- <-]; simpl; lia|].
    destruct src as [ds|b]; [|intros [= <- <-]; simpl; lia].
    destruct (persist _ _ _ d) as [[[]|e] d1] eqn:E.
    + intros [= <- <-] _ _. by apply persist_returned in E.
    + intros [= <- <-]. simpl. lia.
  - destruct (Path_mkdir _ _ d) as [[[]|e] d1] eqn:Emk; [|done].
    destruct (shutil_copy2 _ _ _ _ _ d1) as [[[]|e] d2] eqn:E; [|done].
    intros [= <- <-] _ Hdir.
    assert (is_dir d1 (o ++ rd ++ [name]) = false) as Hdir1.
    { revert Emk. unfold Path_mkdir. rewrite parent_mirror. intros Emk.
      eapply (keeps_no_dir_mkdirs env [] (o ++ rd)); [|exact Emk|done].
      simpl. apply not_prefix_longer. }
    revert E. unfold shutil_copy2.
    destruct (read_denied env _); [done|]. rewrite Hdir1.
    intros ->%write_file_returned. apply lookup_insert_eq.
Qed.

(** A listed file is a file of the tree. *)
Lemma listed_file_at t :
  forall root rd files name c,
    (root ++ rd, files) ∈ os_walk root t -> (name, c) ∈ files ->
    file_at t (rd ++ [name]) c.
Proof.
  induction t as [c0|entries IH] using tree_induction;
    intros root rd files name c.
  - by intros ?%elem_of_nil.
  - rewrite os_walk_folder. intros [[= Hrd ->]|Hw]%elem_of_cons Hin.
    + assert (rd = []) as -> by (by eapply app_inv_head; rewrite app_nil_r).
      apply file_here. clear -Hin.
      induction entries as [|[n [c'|sub]] es IHes]; simpl in Hin.
      * by apply elem_of_nil in Hin.
      * apply elem_of_cons in Hin as [[= -> ->]|Hin]; [by left|].
        right. by apply IHes.
      * right. by apply IHes.
    + apply list_elem_of_bind in Hw as ([n sub] & Hw & He). simpl in Hw.
      destruct (os_walk_roots _ _ _ _ Hw) as [rd2 Hrd2].
      pose proof Hrd2 as Hrd2'.
      rewrite <- app_assoc in Hrd2'. apply app_inv_head in Hrd2' as ->.
      rewrite Forall_forall in IH. rewrite Hrd2 in Hw.
      apply (file_below _ n sub); [done|]. by eapply (IH _ He).
Qed.

(** In a tree with unique names a path leads to one file. *)
Lemma file_at_unique t p c c' :
  wf_tree t -> file_at t p c -> file_at t p c' -> c = c'.
Proof.
  intros Hwf H. revert Hwf c'.
  induction H as [entries name c Hin | entries name sub p c Hin Hfile IH];
    intros Hwf c' H'; inversion Hwf as [|entries' Hnd Hsub]; subst;
    inversion H' as [entries' name' c0 Hin' | entries' name' sub' p' c0 Hin' Hf'];
    subst.
  - assert (File c = File c') by (by eapply NoDup_fst_agree). congruence.
  - inversion Hf'.
  - assert (sub = File c') as -> by (by eapply NoDup_fst_agree).
    inversion Hfile.
  - assert (sub' = sub) as -> by (by eapply NoDup_fst_agree).
    eapply IH; [by eapply Hsub | done].
Qed.

End footprint.

(** X7.  Writes stay at or below the output root.  However the walk ends,
    a path that does not lie at or below the output root is found as it
    was, except that a missing ancestor of the output root may have been
    created as a directory. *)
Theorem writes_confined (env : environment) (i o : path) (pid : string)
    (d : disk) (q : path) :
  ~ o `prefix_of` q ->
  touched_only_towards d o q (anonymize_directory env i o pid d).2.
Proof.
  intros Ho.
  destruct (anonymize_directory env i o pid d) as [r d'] eqn:E. simpl.
  revert E. unfold anonymize_directory.
  destruct (mount env i) as [t|]; [|intros [= <- <-]; by left].
  intros H.
  unfold bind in H.
  destruct (Path_mkdir env o d) as [[[]|e] d1] eqn:Emk.
  - apply (mkdirs_from_lookup _ _ _ _ _ _ q) in Emk. simpl in Emk.
    assert (keeps (touched_only_towards d o q)
              (for_each (visit_dir env i o pid) (os_walk i t) no_stats))
      as Hkeeps.
    { apply keeps_for_each. intros x s _. apply keeps_for_each.
      intros [name src] s0 _. apply keeps_visit_file_below.
      - intros rel. by apply keeps_towards_mkdirs.
      - intros p c Hp. by apply keeps_towards_write. }
    destruct (for_each _ _ _ d1) as [[st|e] d2] eqn:E;
      injection H as <- <-; by eapply Hkeeps.
  - injection H as <- <-.
    by apply (mkdirs_from_lookup _ _ _ _ _ _ q) in Emk.
Qed.

Lemma writes_confined_witness :
  touched_only_towards Cases.busy_disk ["out"] ["archive"; "old.dcm"]
    (anonymize_directory Sample.clinic ["in"] ["out"] "ANON_7"
       Cases.busy_disk).2.
Proof.
  apply (writes_confined Sample.clinic ["in"] ["out"] "ANON_7"
           Cases.busy_disk ["archive"; "old.dcm"]).
  intros [k Hk]. discriminate Hk.
Defined.

(** What the last write to the output path of an input file was, after a
    walk that completed without a failed file. *)
Lemma walk_leaves_mirror (env : environment) (i o : path) (pid : string)
    (d : disk) (s : stats) (t : tree) (p : path) (name : string)
    (c : content) :
  mount env i = Some t ->
  (anonymize_directory env i o pid d).1 = Returned (Some s) ->
  failed s = 0 ->
  wf_tree t ->
  file_at t p c ->
  last p = Some name ->
  is_dir d (o ++ p) = false ->
  (anonymize_directory env i o pid d).2 !! (o ++ p)
  = Some (Regular (mirror_of (codec env) pid name c)).
Proof.
  intros Hmount Hrun Hfailed Hwf Hfile Hlast Hdir.
  revert Hrun. unfold anonymize_directory. rewrite Hmount. unfold bind.
  destruct (Path_mkdir env o d) as [[[]|e] d1] eqn:Emk; [|done].
  destruct (for_each _ _ _ d1) as [[st|e] d2] eqn:E; [|done].
  simpl. intros [= ->].
  destruct (file_at_listed t p c i Hfile)
    as (rd & name' & files & -> & Hlisted & Hin).
  rewrite last_snoc in Hlast. injection Hlast as ->.
  set (q := o ++ rd ++ [name]) in *.
  set (X := mirror_of (codec env) pid name c).
  set (J := fun (_ : stats) (d : disk) => is_dir d q = false).
  set (Q := fun (s : stats) (d : disk) =>
              failed s = 0 -> d !! q = Some (Regular X)).
  assert (forall rd' files' y s0 d0 s1 d3,
            (i ++ rd', files') ∈ os_walk i t -> y ∈ files' ->
            visit_file env i o pid (i ++ rd') y s0 d0 = (Returned s1, d3) ->
            Q s0 d0 -> Q s1 d3) as HQfile.
  { intros rd' files' [name' c'] s0 d0 s1 d3 Hl Hy Hv HQ0 Hf.
    pose proof (visit_file_counts _ _ _ _ _ _ _ _ _ _ Hv) as (_ & _ & Hle).
    assert (d0 !! q = Some (Regular X)) as Hq0 by (apply HQ0; lia).
    pose proof (listed_file_at _ _ _ _ _ _ Hl Hy) as Hfile'.
    destruct (visit_file_lookup _ _ _ _ _ _ _ _ _ _ _ q Hv)
      as [[Hsame | (Hnone & _)] | [[Heq Hw] | [Heq Hw]]].
    - congruence.
    - congruence.
    - unfold q in Heq. apply app_inv_head in Heq.
      apply app_inj_tail in Heq as [<- <-].
      rewrite Hw. unfold X.
      by rewrite (file_at_unique _ _ _ _ Hwf Hfile Hfile').
    - exfalso. unfold q in Heq. rewrite <- !app_assoc in Heq.
      apply app_inv_head in Heq.
      rewrite (app_assoc rd') in Heq. apply app_inj_tail in Heq as [-> _].
      apply (file_not_entered _ _ _ Hfile' Hwf i (rd' ++ [name']) files);
        [exact Hlisted | reflexivity]. }
  apply (for_each_reach _ J Q (i ++ rd, files) _) in E;
    [by apply E | | | | done |].
  - intros [root' files'] s0 d0 s1 d3 Hx Hv HJ0. unfold J in *.
    destruct (os_walk_roots _ _ _ _ Hx) as [rd' ->].
    eapply (keeps_for_each (fun d => is_dir d q = false)); [|exact Hv|done].
    intros y s2 _. apply visit_file_no_dir. unfold q.
    intros Hp%prefix_app_inv. by eapply file_not_entered.
  - intros [root' files'] s0 d0 s1 d3 Hx Hv.
    destruct (os_walk_roots _ _ _ _ Hx) as [rd' ->].
    unfold visit_dir in Hv. simpl in Hv.
    eapply for_each_preserved_in; [|exact Hv].
    intros y s2 d4 s3 d5 Hy. by eapply HQfile.
  - intros s0 d0 s1 d3 Hv HJ0. unfold visit_dir in Hv. simpl in Hv.
    apply (for_each_reach _ J Q (name, c) _) in Hv; [done | | | | done | done].
    + intros y s2 d4 s3 d5 _ Hy HJ2. unfold J in *.
      eapply visit_file_no_dir; [|exact Hy|done]. apply not_prefix_longer.
    + intros y s2 d4 s3 d5 Hy. by eapply HQfile.
    + intros s2 d4 s3 d5 Hy HJ2 Hf.
      pose proof (visit_file_counts _ _ _ _ _ _ _ _ _ _ Hy) as (_ & _ & Hle).
      eapply visit_file_writes_content; [exact Hy | lia | exact HJ2].
  - unfold J.
    eapply (keeps_no_dir_mkdirs env [] o); [|exact Emk|exact Hdir].
    simpl. intros Hp%prefix_length. unfold q in Hp.
    rewrite !length_app in Hp. simpl in Hp. lia.
Qed.

(** A file with a DICOM-like name that does not parse is counted as
    failed by a walk that completes. *)
Lemma unparsable_counted (env : environment) (i o : path) (pid : string)
    (d : disk) (s : stats) (t : tree) (p : path) (name bytes : string) :
  mount env i = Some t ->
  (anonymize_directory env i o pid d).1 = Returned (Some s) ->
  file_at t p (Blob bytes) ->
  last p = Some name ->
  is_dicom_name name = true ->
  1 <= failed s.
Proof.
  intros Hmount Hrun Hfile Hlast Hname.
  revert Hrun. unfold anonymize_directory. rewrite Hmount. unfold bind.
  destruct (Path_mkdir env o d) as [[[]|e] d1]; [|done].
  destruct (for_each _ _ _ d1) as [[st|e] d2] eqn:E; [|done].
  simpl. intros [= ->].
  destruct (file_at_listed t p _ i Hfile)
    as (rd & name' & files & -> & Hlisted & Hin).
  rewrite last_snoc in Hlast. injection Hlast as ->.
  set (Q := fun (st : stats) (_ : disk) => 1 <= failed st).
  assert (forall root x st d st' d',
            visit_file env i o pid root x st d = (Returned st', d') ->
            Q st d -> Q st' d') as Hkeep.
  { intros root x st0 d0 st' d' H HQ. unfold Q in *.
    apply visit_file_counts in H. lia. }
  apply (for_each_established _ Q (i ++ rd, files)) in E; [done | | | done].
  - intros x st0 d0 st' d' H. unfold visit_dir in H.
    eapply for_each_preserved; [|exact H]. intros y. apply Hkeep.
  - intros st0 d0 st' d' H. unfold visit_dir in H. simpl in H.
    apply (for_each_established _ Q (name, Blob bytes)) in H;
      [done | apply Hkeep | | done].
    intros st1 d3 st2 d4. unfold visit_file.
    rewrite <- app_assoc, relative_to_app, Hname.
    destruct (interrupted env _); [done|]. unfold bind.
    rewrite anonymize_dicom_file_eq.
    destruct (read_denied env _); intros [= <- <-]; unfold Q; simpl; lia.
Qed.

(** X8.  The output tree mirrors the input tree file by file.  After a
    walk that completed without a failed file over a tree with unique
    names, and provided no directory sat at the output path before the run:
    the output path of a file with an opaque name holds that file,
    unchanged; the output path of a file with a DICOM-like name holds a
    record, the input was a record too, and the two have the same
    attributes and agree on every attribute outside the policy table.
    Nothing is said here about the values of the rewritten attributes. *)
Theorem mirrored_content (env : environment) (i o : path) (pid : string)
    (d : disk) (s : stats) (t : tree) (p : path) (name : string)
    (c : content) :
  mount env i = Some t ->
  (anonymize_directory env i o pid d).1 = Returned (Some s) ->
  failed s = 0 ->
  wf_tree t ->
  file_at t p c ->
  last p = Some name ->
  is_dir d (o ++ p) = false ->
  let d' := (anonymize_directory env i o pid d).2 in
  if is_dicom_name name then
    exists ds ds',
      c = Dicom ds
      /\ d' !! (o ++ p) = Some (Regular (Dicom ds'))
      /\ dom ds' = dom ds
      /\ (forall tag, tag ∉ TAGS_TO_ANONYMIZE -> ds' !! tag = ds !! tag)
  else d' !! (o ++ p) = Some (Regular c).
Proof.
  intros Hmount Hrun Hfailed Hwf Hfile Hlast Hdir d'. subst d'.
  rewrite (walk_leaves_mirror env i o pid d s t p name c
             Hmount Hrun Hfailed Hwf Hfile Hlast Hdir).
  unfold mirror_of. destruct (is_dicom_name name) eqn:Hname; [|done].
  destruct c as [ds|bytes].
  - exists ds, (anonymize_tags (codec env) pid ds).
    split; [done|]. split; [done|]. split; [apply anonymize_tags_dom|].
    intros tag Htag. rewrite anonymize_tags_lookup.
    by rewrite bool_decide_eq_false_2.
  - pose proof (unparsable_counted env i o pid d s t p name bytes
                  Hmount Hrun Hfile Hlast Hname). lia.
Qed.

Lemma mirrored_content_witness :
  let d' := (anonymize_directory Sample.clinic ["in"] ["out"] "ANON_7" ∅).2 in
  if is_dicom_name "notes.txt" then
    exists ds ds',
      Blob "see report" = Dicom ds
      /\ d' !! (["out"] ++ ["notes.txt"]) = Some (Regular (Dicom ds'))
      /\ dom ds' = dom ds
      /\ (forall tag, tag ∉ TAGS_TO_ANONYMIZE -> ds' !! tag = ds !! tag)
  else d' !! (["out"] ++ ["notes.txt"]) = Some (Regular (Blob "see report")).
Proof.
  apply (mirrored_content Sample.clinic ["in"] ["out"] "ANON_7" ∅
           {| total_files := 3; anonymized := 2; failed := 0; skipped := 1 |}
           Sample.study ["notes.txt"] "notes.txt" (Blob "see report")).
  - reflexivity.
  - by vm_compute.
  - reflexivity.
  - apply study_wf.
  - apply file_here. right. left.
  - reflexivity.
  - reflexivity.
Defined.

(* ===================================================================== *)
(** ** old/anon.py: what the in-place functions leave behind *)
(* ===================================================================== *)

Section in_place_more.

Variable sys : Old.system.

Lemma append_length a b :
  String.length (a +:+ b) = String.length a + String.length b.
Proof.
  induction a as [|x a IH]; [done|]. rewrite append_cons. simpl. by rewrite IH.
Qed.

Lemma backup_differs fdcm : fdcm +:+ ".backup" <> fdcm.
Proof.
  intros H. apply (f_equal String.length) in H.
  rewrite append_length in H. simpl in H. lia.
Qed.

(** One turn of the loop keeps the attribute set and the other
    attributes, and never takes [modified] back. *)
Lemma modify_one_facts newvalue ds modified g tag ds' modified' g' :
  Old.modify_one sys newvalue (ds, modified, g) tag = (ds', modified', g') ->
  dom ds' = dom ds
  /\ (forall t, t <> tag -> ds' !! t = ds !! t)
  /\ (modified = true -> modified' = true)
  /\ (modified' = true -> modified = true \/ is_Some (ds !! tag)).
Proof.
  unfold Old.modify_one.
  destruct (ds !! tag) as [old|] eqn:E; [|by intros [= <- <- <-]; auto].
  destruct (Old.replacement _ tag newvalue g) as [v g1].
  assert (forall x, dom (<[tag := x]> ds) = dom ds) as Hdom.
  { intros x. apply dom_insert_lookup_L. by rewrite E. }
  destruct (Old.sys_codec sys tag old v); intros [= <- <- <-];
    (split; [apply Hdom|]; split;
     [intros t Ht; by rewrite lookup_insert_ne|]; eauto).
Qed.

Lemma foldl_step {A B} (f : A -> B -> A) a x l :
  foldl f a (x :: l) = foldl f (f a x) l.
Proof. reflexivity. Qed.

Lemma modify_loop_facts newvalue tags ds modified g ds' modified' g' :
  foldl (Old.modify_one sys newvalue) (ds, modified, g) tags
    = (ds', modified', g') ->
  dom ds' = dom ds
  /\ (forall t, t ∉ tags -> ds' !! t = ds !! t)
  /\ (modified = true -> modified' = true)
  /\ (modified' = true ->
      modified = true \/ exists t, t ∈ tags /\ is_Some (ds !! t)).
Proof.
  revert ds modified g.
  induction tags as [|tag tags IH]; intros ds modified g.
  - simpl. intros [= <- <- <-]. split; [done|]. split; [done|]. auto.
  - rewrite foldl_step.
    destruct (Old.modify_one sys newvalue (ds, modified, g) tag)
      as [[ds1 m1] g1] eqn:E1.
    apply modify_one_facts in E1 as (Hd1 & Ho1 & Hm1 & Hp1).
    intros H. apply IH in H as (Hd & Ho & Hm & Hp).
    split; [congruence|]. split; [|split].
    + intros t Ht. rewrite Ho, Ho1; [done | |];
        intros ?; apply Ht; subst; [by left | by right].
    + auto.
    + intros H'. destruct (Hp H') as [Hm1'|(t & Ht & Hsome)].
      * destruct (Hp1 Hm1') as [?|?]; [by left|].
        right. exists tag. split; [by left | done].
      * right. exists t. split; [by right|].
        apply elem_of_dom. rewrite <- Hd1. by apply elem_of_dom.
Qed.

(** A listed tag that is present, that the codec always stores and whose
    replacement is the supplied value ends up holding it, and sets
    [modified]. *)
Lemma modify_loop_stores newvalue tag tags :
  NoDup tags -> tag ∈ tags ->
  (forall old v, Old.sys_codec sys tag old v = Stored) ->
  (forall g, Old.replacement (Old.sys_random sys) tag newvalue g
             = (newvalue, g)) ->
  forall ds modified g ds' modified' g',
    is_Some (ds !! tag) ->
    foldl (Old.modify_one sys newvalue) (ds, modified, g) tags
      = (ds', modified', g') ->
    ds' !! tag = Some newvalue /\ modified' = true.
Proof.
  intros Hnd Hin Hstored Hrepl. induction Hnd as [|a l Ha Hnd IH];
    intros ds modified g ds' modified' g' [old Hold].
  - by apply elem_of_nil in Hin.
  - rewrite foldl_step. destruct (decide (a = tag)) as [->|Hne].
    + replace (Old.modify_one sys newvalue (ds, modified, g) tag)
        with (<[tag := newvalue]> ds, true, g)
        by (unfold Old.modify_one; by rewrite Hold, Hrepl, Hstored).
      intros H. apply modify_loop_facts in H as (_ & Ho & Hm & _).
      split; [|by apply Hm]. rewrite Ho by done. apply lookup_insert_eq.
    + destruct (Old.modify_one sys newvalue (ds, modified, g) a)
        as [[ds1 m1] g1] eqn:E1.
      apply modify_one_facts in E1 as (_ & Ho1 & _ & _).
      apply IH.
      * apply elem_of_cons in Hin as [?|?]; [congruence | done].
      * exists old. by rewrite Ho1.
Qed.

(** The control flow of [modify_single_dcm] once the file is read. *)
Lemma modify_single_dcm_eq fdcm tags newvalue fs g ds :
  Old.sys_read_denied sys fdcm = false ->
  fs !! fdcm = Some (Dicom ds) ->
  forall ds' modified g',
    foldl (Old.modify_one sys newvalue) (ds, false, g) tags
      = (ds', modified, g') ->
    Old.modify_single_dcm sys fdcm tags newvalue fs g =
    if modified then
      if Old.sys_write_denied sys (fdcm +:+ ".backup") then (false, fs, g')
      else if Old.sys_write_denied sys fdcm
           then (false, <[fdcm +:+ ".backup" := Dicom ds]> fs, g')
           else (true, <[fdcm := Dicom ds']>
                         (<[fdcm +:+ ".backup" := Dicom ds]> fs), g')
    else (false, fs, g').
Proof.
  intros Hread Hfile ds' modified g' Hloop.
  unfold Old.modify_single_dcm. by rewrite Hread, Hfile, Hloop.
Qed.

(** What a call that returns True has done. *)
Lemma modify_single_dcm_true fdcm tags newvalue fs g fs' g' :
  Old.modify_single_dcm sys fdcm tags newvalue fs g = (true, fs', g') ->
  Old.sys_read_denied sys fdcm = false
  /\ exists ds ds',
       fs !! fdcm = Some (Dicom ds)
       /\ fs' = <[fdcm := Dicom ds']> (<[fdcm +:+ ".backup" := Dicom ds]> fs)
       /\ dom ds' = dom ds
       /\ (forall t, t ∉ tags -> ds' !! t = ds !! t)
       /\ (exists t, t ∈ tags /\ is_Some (ds !! t)).
Proof.
  unfold Old.modify_single_dcm.
  destruct (Old.sys_read_denied sys fdcm); [done|].
  destruct (fs !! fdcm) as [[ds|b]|] eqn:Hfile; [|done|done].
  destruct (foldl _ _ tags) as [[ds' modified] g1] eqn:Hloop.
  apply modify_loop_facts in Hloop as (Hd & Ho & _ & Hp).
  destruct modified; [|done].
  destruct (Old.sys_write_denied sys (fdcm +:+ ".backup")); [done|].
  destruct (Old.sys_write_denied sys fdcm); [done|].
  intros [= <- <-]. split; [done|]. exists ds, ds'.
  repeat split; try done. by destruct (Hp eq_refl).
Qed.

(** Whatever it returns, a call touches the file and its backup only. *)
Lemma modify_single_dcm_elsewhere fdcm tags newvalue fs g q :
  q <> fdcm -> q <> fdcm +:+ ".backup" ->
  (Old.modify_single_dcm sys fdcm tags newvalue fs g).1.2 !! q = fs !! q.
Proof.
  intros Hq Hb. unfold Old.modify_single_dcm.
  destruct (Old.sys_read_denied sys fdcm); [done|].
  destruct (fs !! fdcm) as [[ds|b]|]; [|done|done].
  destruct (foldl _ _ tags) as [[ds' modified] g1].
  destruct modified; [|done].
  destruct (Old.sys_write_denied sys (fdcm +:+ ".backup")); [done|].
  destruct (Old.sys_write_denied sys fdcm); simpl.
  - by rewrite lookup_insert_ne.
  - by rewrite !lookup_insert_ne.
Qed.

End in_place_more.

(** X9.  When [modify_single_dcm] returns True, the .backup sibling holds
    the record the file held before the call, the file holds a record with
    the same attributes in which everything outside the listed tags is
    unchanged, at least one listed tag was present, and no other file was
    touched. *)
Theorem modify_single_dcm_success (sys : Old.system) (fdcm : string)
    (tags : list string) (newvalue : string) (fs fs' : gmap string content)
    (g g' : Old.rng (Old.sys_random sys)) :
  Old.modify_single_dcm sys fdcm tags newvalue fs g = (true, fs', g') ->
  exists ds ds',
    fs !! fdcm = Some (Dicom ds)
    /\ fs' !! (fdcm +:+ ".backup") = Some (Dicom ds)
    /\ fs' !! fdcm = Some (Dicom ds')
    /\ dom ds' = dom ds
    /\ (forall t, t ∉ tags -> ds' !! t = ds !! t)
    /\ (exists t, t ∈ tags /\ is_Some (ds !! t))
    /\ (forall q, q <> fdcm -> q <> fdcm +:+ ".backup" -> fs' !! q = fs !! q).
Proof.
  intros H.
  destruct (modify_single_dcm_true _ _ _ _ _ _ _ _ H)
    as (_ & ds & ds' & Hfile & -> & Hdom & Hother & Hsome).
  exists ds, ds'. split; [done|]. split.
  { rewrite lookup_insert_ne by (symmetry; apply backup_differs).
    apply lookup_insert_eq. }
  split; [apply lookup_insert_eq|]. split; [done|]. split; [done|].
  split; [done|]. intros q Hq Hb. by rewrite !lookup_insert_ne.
Qed.

Lemma modify_single_dcm_success_witness :
  let run := Old.modify_single_dcm Sample.workstation "ct/1.dcm"
               ["PatientName"; "StudyDate"] "ANON_7" Ward.shelf 0 in
  exists ds ds',
    Ward.shelf !! "ct/1.dcm" = Some (Dicom ds)
    /\ run.1.2 !! ("ct/1.dcm" +:+ ".backup") = Some (Dicom ds)
    /\ run.1.2 !! "ct/1.dcm" = Some (Dicom ds')
    /\ dom ds' = dom ds
    /\ (forall t, t ∉ ["PatientName"; "StudyDate"] -> ds' !! t = ds !! t)
    /\ (exists t, t ∈ ["PatientName"; "StudyDate"] /\ is_Some (ds !! t))
    /\ (forall q, q <> "ct/1.dcm" -> q <> "ct/1.dcm" +:+ ".backup" ->
        run.1.2 !! q = Ward.shelf !! q).
Proof.
  intros run.
  apply (modify_single_dcm_success Sample.workstation "ct/1.dcm"
           ["PatientName"; "StudyDate"] "ANON_7" Ward.shelf run.1.2 0 run.2).
  by vm_compute.
Defined.

(** X10.  When [modify_single_dcm] returns False, the DICOM file itself is
    as it was: the only file that can differ is the .backup sibling, left
    behind when the backup was made and saving then failed. *)
Theorem modify_single_dcm_failure (sys : Old.system) (fdcm : string)
    (tags : list string) (newvalue : string) (fs fs' : gmap string content)
    (g g' : Old.rng (Old.sys_random sys)) :
  Old.modify_single_dcm sys fdcm tags newvalue fs g = (false, fs', g') ->
  fs' !! fdcm = fs !! fdcm
  /\ (forall q, q <> fdcm +:+ ".backup" -> fs' !! q = fs !! q)
  /\ (fs' = fs
      \/ exists ds, fs !! fdcm = Some (Dicom ds)
                    /\ Old.sys_write_denied sys fdcm = true
                    /\ fs' = <[fdcm +:+ ".backup" := Dicom ds]> fs).
Proof.
  unfold Old.modify_single_dcm.
  destruct (Old.sys_read_denied sys fdcm); [intros [= <- <-]; auto|].
  destruct (fs !! fdcm) as [[ds|b]|] eqn:Hfile;
    [|intros [= <- <-]; auto|intros [= <- <-]; auto].
  destruct (foldl _ _ tags) as [[ds' modified] g1].
  destruct modified; [|intros [= <- <-]; auto].
  destruct (Old.sys_write_denied sys (fdcm +:+ ".backup"));
    [intros [= <- <-]; auto|].
  destruct (Old.sys_write_denied sys fdcm) eqn:Hw; [|done].
  intros [= <- <-]. split; [|split].
  - rewrite lookup_insert_ne; [done | apply backup_differs].
  - intros q Hq. by rewrite lookup_insert_ne.
  - right. by exists ds.
Qed.

Lemma modify_single_dcm_failure_witness :
  let sys :=
    {| Old.sys_codec := fun _ _ _ => Stored; Old.sys_random := Sample.dice;
       Old.sys_read_denied := fun _ => false;
       Old.sys_write_denied := fun p => String.eqb p "ct/1.dcm" |} in
  let run := Old.modify_single_dcm sys "ct/1.dcm"
               ["PatientName"; "StudyDate"] "ANON_7" Ward.shelf 0 in
  run.1.2 !! "ct/1.dcm" = Ward.shelf !! "ct/1.dcm"
  /\ (forall q, q <> "ct/1.dcm" +:+ ".backup" ->
      run.1.2 !! q = Ward.shelf !! q)
  /\ (run.1.2 = Ward.shelf
      \/ exists ds, Ward.shelf !! "ct/1.dcm" = Some (Dicom ds)
                    /\ Old.sys_write_denied sys "ct/1.dcm" = true
                    /\ run.1.2
                       = <["ct/1.dcm" +:+ ".backup" := Dicom ds]> Ward.shelf).
Proof.
  intros sys run.
  apply (modify_single_dcm_failure sys "ct/1.dcm"
           ["PatientName"; "StudyDate"] "ANON_7" Ward.shelf run.1.2 0 run.2).
  by vm_compute.
Defined.

(** X11.  The backup is overwritten by every successful call.  After two
    calls on the same file that both return True, the .backup sibling holds
    what the first call saved (the record the file held when the second
    call began), just as after the first call it held the original record.
    So whenever the first call changed the record, the original record is
    no longer in the backup; it is still there only when the first call
    saved the record it had read. *)
Theorem second_call_replaces_backup (sys : Old.system) (fdcm : string)
    (tags1 tags2 : list string) (value1 value2 : string)
    (fs fs1 fs2 : gmap string content)
    (g g1 g2 : Old.rng (Old.sys_random sys)) :
  Old.modify_single_dcm sys fdcm tags1 value1 fs g = (true, fs1, g1) ->
  Old.modify_single_dcm sys fdcm tags2 value2 fs1 g1 = (true, fs2, g2) ->
  fs2 !! (fdcm +:+ ".backup") = fs1 !! fdcm
  /\ fs1 !! (fdcm +:+ ".backup") = fs !! fdcm
  /\ (fs2 !! (fdcm +:+ ".backup") = fs !! fdcm <-> fs1 !! fdcm = fs !! fdcm).
Proof.
  intros H1 H2.
  destruct (modify_single_dcm_true _ _ _ _ _ _ _ _ H1)
    as (_ & ds & ds' & Hfile & -> & _).
  destruct (modify_single_dcm_true _ _ _ _ _ _ _ _ H2)
    as (_ & ds1 & ds1' & Hfile1 & -> & _).
  assert (<[fdcm := Dicom ds1']>
            (<[fdcm +:+ ".backup" := Dicom ds1]>
               (<[fdcm := Dicom ds']>
                  (<[fdcm +:+ ".backup" := Dicom ds]> fs)))
            !! (fdcm +:+ ".backup") = Some (Dicom ds1)) as Hb2.
  { rewrite lookup_insert_ne by (symmetry; apply backup_differs).
    apply lookup_insert_eq. }
  split; [by rewrite Hfile1|]. split.
  - rewrite Hfile.
    rewrite lookup_insert_ne by (symmetry; apply backup_differs).
    apply lookup_insert_eq.
  - by rewrite Hb2, Hfile1.
Qed.

Lemma second_call_replaces_backup_witness :
  let run1 := Old.modify_single_dcm Sample.workstation "ct/1.dcm"
                ["PatientName"] "ANON_7" Ward.shelf 0 in
  let run2 := Old.modify_single_dcm Sample.workstation "ct/1.dcm"
                ["PatientName"] "ANON_8" run1.1.2 run1.2 in
  run2.1.2 !! ("ct/1.dcm" +:+ ".backup") = run1.1.2 !! "ct/1.dcm"
  /\ run1.1.2 !! ("ct/1.dcm" +:+ ".backup") = Ward.shelf !! "ct/1.dcm"
  /\ (run2.1.2 !! ("ct/1.dcm" +:+ ".backup") = Ward.shelf !! "ct/1.dcm"
      <-> run1.1.2 !! "ct/1.dcm" = Ward.shelf !! "ct/1.dcm").
Proof.
  intros run1 run2.
  apply (second_call_replaces_backup Sample.workstation "ct/1.dcm"
           ["PatientName"] ["PatientName"] "ANON_7" "ANON_8"
           Ward.shelf run1.1.2 run2.1.2 0 run1.2 run2.2).
  - by vm_compute.
  - by vm_compute.
Defined.

(** Both cases occur.  Two calls with fresh identifiers lose the original
    record; a first call that stores the name the record already carries
    returns True all the same and the backup still equals the original. *)
Example original_lost_after_two_calls :
  let run1 := Old.modify_single_dcm Sample.workstation "ct/1.dcm"
                ["PatientName"] "ANON_7" Ward.shelf 0 in
  let run2 := Old.modify_single_dcm Sample.workstation "ct/1.dcm"
                ["PatientName"] "ANON_8" run1.1.2 run1.2 in
  run1.1.1 = true /\ run2.1.1 = true
  /\ run2.1.2 !! ("ct/1.dcm" +:+ ".backup") <> Ward.shelf !! "ct/1.dcm".
Proof.
  intros run1 run2. split; [by vm_compute|]. split; [by vm_compute|].
  intros H.
  apply (f_equal (fun o => match o with
                           | Some (Dicom ds) => ds !! "PatientName"
                           | _ => None
                           end)) in H.
  vm_compute in H. discriminate H.
Qed.

Example original_kept_after_idle_call :
  let run1 := Old.modify_single_dcm Sample.workstation "ct/1.dcm"
                ["PatientName"] "Doe^Jane" Ward.shelf 0 in
  let run2 := Old.modify_single_dcm Sample.workstation "ct/1.dcm"
                ["PatientName"] "ANON_8" run1.1.2 run1.2 in
  run1.1.1 = true /\ run2.1.1 = true
  /\ run2.1.2 !! ("ct/1.dcm" +:+ ".backup") = Ward.shelf !! "ct/1.dcm".
Proof. intros run1 run2. by vm_compute. Qed.
(* ===================================================================== *)
(** ** old/anon.py: the callers of modify_single_dcm *)
(* ===================================================================== *)

Section callers.

Variable sys : Old.system.

Lemma validate_dicom_file_true file_path fs :
  InPlace.validate_dicom_file sys file_path fs = true ->
  Old.sys_read_denied sys file_path = false
  /\ exists ds, fs !! file_path = Some (Dicom ds)
                /\ is_Some (ds !! "PatientID")
                /\ is_Some (ds !! "StudyInstanceUID").
Proof.
  unfold InPlace.validate_dicom_file.
  destruct (Old.sys_read_denied sys file_path); [done|].
  destruct (fs !! file_path) as [[ds|b]|]; [|done|done].
  do 2 case_bool_decide; simpl; try done.
  intros _. split; [done|]. by exists ds.
Qed.

Lemma validate_dicom_file_intro file_path fs ds :
  Old.sys_read_denied sys file_path = false ->
  fs !! file_path = Some (Dicom ds) ->
  is_Some (ds !! "PatientID") -> is_Some (ds !! "StudyInstanceUID") ->
  InPlace.validate_dicom_file sys file_path fs = true.
Proof.
  intros Hread Hfile Hid Huid. unfold InPlace.validate_dicom_file.
  rewrite Hread, Hfile. by rewrite !bool_decide_eq_true_2.
Qed.

Lemma study_uid_not_listed : "StudyInstanceUID" ∉ Old.DICOM_TAGS_TO_ANONYMIZE.
Proof. apply (bool_decide_unpack _). by vm_compute. Qed.

Lemma patient_id_listed : "PatientID" ∈ Old.DICOM_TAGS_TO_ANONYMIZE.
Proof. apply (bool_decide_unpack _). by vm_compute. Qed.

Lemma listed_tags_distinct : NoDup Old.DICOM_TAGS_TO_ANONYMIZE.
Proof. apply (bool_decide_unpack _). by vm_compute. Qed.

Lemma replacement_patient_id newvalue g :
  Old.replacement (Old.sys_random sys) "PatientID" newvalue g = (newvalue, g).
Proof. reflexivity. Qed.

(** One listed name: the counter grows by at most one, and only for a name
    that ends with ".dcm"; no path but that file and its backup changes. *)
Lemma modify_listed_facts plat tags nv root st file :
  (InPlace.modify_listed sys plat tags nv root st file).1.1
    <= st.1.1 + (if PyStr.endswith file ".dcm" then 1 else 0)
  /\ forall q,
       (PyStr.endswith file ".dcm" = true ->
        q <> InPlace.os_path_join plat root file
        /\ q <> InPlace.os_path_join plat root file +:+ ".backup") ->
       (InPlace.modify_listed sys plat tags nv root st file).1.2 !! q
       = st.1.2 !! q.
Proof.
  destruct st as [[n fs] g]. unfold InPlace.modify_listed.
  destruct (PyStr.endswith file ".dcm"); [|simpl; split; [lia | done]].
  destruct (InPlace.validate_dicom_file _ _ fs); [|simpl; split; [lia | done]].
  pose proof (modify_single_dcm_elsewhere sys
                (InPlace.os_path_join plat root file) tags nv fs g) as Hels.
  destruct (Old.modify_single_dcm _ _ _ _ fs g) as [[ok fs'] g'].
  simpl in Hels.
  destruct ok; simpl; (split; [lia|]); intros q Hq;
    destruct (Hq eq_refl); by apply Hels.
Qed.

Lemma files_loop_facts plat tags nv root files st :
  (foldl (InPlace.modify_listed sys plat tags nv root) st files).1.1
    <= st.1.1 + length (List.filter (fun f => PyStr.endswith f ".dcm") files)
  /\ forall q,
       (forall file, file ∈ files -> PyStr.endswith file ".dcm" = true ->
        q <> InPlace.os_path_join plat root file
        /\ q <> InPlace.os_path_join plat root file +:+ ".backup") ->
       (foldl (InPlace.modify_listed sys plat tags nv root) st files).1.2 !! q
       = st.1.2 !! q.
Proof.
  revert st. induction files as [|file files IH]; intros st.
  - simpl. split; [lia | done].
  - rewrite foldl_step.
    destruct (IH (InPlace.modify_listed sys plat tags nv root st file))
      as [Hn Hq].
    destruct (modify_listed_facts plat tags nv root st file) as [Hn1 Hq1].
    split.
    + simpl List.filter.
      destruct (PyStr.endswith file ".dcm"); simpl length; lia.
    + intros q Hout. rewrite Hq, Hq1; [done | |].
      * intros He. apply Hout; [by left | done].
      * intros f Hf. apply Hout. by right.
Qed.

Lemma walk_loop_facts plat tags nv listing st :
  let st' :=
    foldl (fun st (x : string * list string) =>
             foldl (InPlace.modify_listed sys plat tags nv x.1) st x.2)
          st listing in
  st'.1.1 <= st.1.1 + InPlace.listed_dcm listing
  /\ forall q, ~ InPlace.in_reach plat listing q -> st'.1.2 !! q = st.1.2 !! q.
Proof.
  simpl. revert st. induction listing as [|[root files] listing IH]; intros st.
  - simpl. split; [unfold InPlace.listed_dcm; simpl; lia | done].
  - rewrite foldl_step. simpl fst. simpl snd.
    destruct (IH (foldl (InPlace.modify_listed sys plat tags nv root) st files))
      as [Hn Hq].
    destruct (files_loop_facts plat tags nv root files st) as [Hn1 Hq1].
    split.
    + unfold InPlace.listed_dcm in *. simpl. lia.
    + intros q Hout. rewrite Hq, Hq1; [done | |].
      * intros file Hf He. split; intros ->; apply Hout;
          exists root, files, file;
          (split; [by left|]; split; [done|]; split; [done|]); auto.
      * intros (r & fl & f & Hin & Hf & He & Hqq). apply Hout.
        exists r, fl, f. split; [by right | done].
Qed.

End callers.

(** X12.  When [anonymize_dicom_file] of old/anon.py returns True, the
    file still passes [validate_dicom_file], its StudyInstanceUID is the one
    it had, and the .backup sibling holds the record as it was before. *)
Theorem anonymized_file_stays_valid (sys : Old.system)
    (ids : InPlace.id_source (Old.sys_random sys))
    (file_path prefix : string) (fs fs' : gmap string content)
    (g g' : Old.rng (Old.sys_random sys)) :
  InPlace.anonymize_dicom_file sys ids file_path prefix fs g
    = (true, fs', g') ->
  InPlace.validate_dicom_file sys file_path fs' = true
  /\ exists ds ds',
       fs !! file_path = Some (Dicom ds)
       /\ fs' !! file_path = Some (Dicom ds')
       /\ ds' !! "StudyInstanceUID" = ds !! "StudyInstanceUID"
       /\ fs' !! (file_path +:+ ".backup") = Some (Dicom ds).
Proof.
  unfold InPlace.anonymize_dicom_file.
  destruct (InPlace.validate_dicom_file sys file_path fs) eqn:Hvalid;
    [|done]. simpl.
  destruct (InPlace.generate_anonymous_id ids prefix g) as [pid g1].
  intros H.
  apply validate_dicom_file_true in Hvalid
    as (Hread & ds0 & Hfile0 & Hid & Huid).
  destruct (modify_single_dcm_true _ _ _ _ _ _ _ _ H)
    as (_ & ds & ds' & Hfile & -> & Hdom & Hother & _).
  assert (ds0 = ds) as -> by congruence.
  assert (forall t, is_Some (ds !! t) -> is_Some (ds' !! t)) as Hkeep.
  { intros t Ht. apply elem_of_dom. rewrite Hdom. by apply elem_of_dom. }
  split.
  - apply (validate_dicom_file_intro sys _ _ ds'); auto.
    apply lookup_insert_eq.
  - exists ds, ds'. split; [done|]. split; [apply lookup_insert_eq|].
    split; [apply Hother, study_uid_not_listed|].
    rewrite lookup_insert_ne by (symmetry; apply backup_differs).
    apply lookup_insert_eq.
Qed.

Lemma anonymized_file_stays_valid_witness :
  let run := InPlace.anonymize_dicom_file Sample.workstation Ward.ids
               "ct/1.dcm" "ANON" Ward.shelf 0 in
  InPlace.validate_dicom_file Sample.workstation "ct/1.dcm" run.1.2 = true
  /\ exists ds ds',
       Ward.shelf !! "ct/1.dcm" = Some (Dicom ds)
       /\ run.1.2 !! "ct/1.dcm" = Some (Dicom ds')
       /\ ds' !! "StudyInstanceUID" = ds !! "StudyInstanceUID"
       /\ run.1.2 !! ("ct/1.dcm" +:+ ".backup") = Some (Dicom ds).
Proof.
  intros run.
  apply (anonymized_file_stays_valid Sample.workstation Ward.ids
           "ct/1.dcm" "ANON" Ward.shelf run.1.2 0 run.2).
  by vm_compute.
Defined.

(** X13.  A file that passes [validate_dicom_file] is anonymized whenever
    the file and its backup can be written and pydicom accepts the new
    PatientID: [anonymize_dicom_file] of old/anon.py returns True and the
    saved record carries the identifier that [generate_anonymous_id]
    produced. *)
Theorem valid_file_gets_generated_id (sys : Old.system)
    (ids : InPlace.id_source (Old.sys_random sys))
    (file_path prefix : string) (fs : gmap string content)
    (g : Old.rng (Old.sys_random sys)) :
  InPlace.validate_dicom_file sys file_path fs = true ->
  (forall old v, Old.sys_codec sys "PatientID" old v = Stored) ->
  Old.sys_write_denied sys file_path = false ->
  Old.sys_write_denied sys (file_path +:+ ".backup") = false ->
  exists fs' g' ds',
    InPlace.anonymize_dicom_file sys ids file_path prefix fs g
      = (true, fs', g')
    /\ fs' !! file_path = Some (Dicom ds')
    /\ ds' !! "PatientID"
       = Some (InPlace.generate_anonymous_id ids prefix g).1.
Proof.
  intros Hvalid Hstored Hw Hwb.
  unfold InPlace.anonymize_dicom_file. rewrite Hvalid. simpl.
  apply validate_dicom_file_true in Hvalid
    as (Hread & ds & Hfile & Hid & _).
  destruct (InPlace.generate_anonymous_id ids prefix g) as [pid g1]. simpl.
  destruct (foldl (Old.modify_one sys pid) (ds, false, g1)
              Old.DICOM_TAGS_TO_ANONYMIZE) as [[ds' modified] g'] eqn:Hloop.
  destruct (modify_loop_stores sys pid "PatientID" _
              listed_tags_distinct patient_id_listed Hstored
              (replacement_patient_id sys pid) _ _ _ _ _ _ Hid Hloop)
    as [Hpid ->].
  rewrite (modify_single_dcm_eq sys _ _ _ _ _ _ Hread Hfile _ _ _ Hloop).
  rewrite Hw, Hwb. eexists _, _, ds'. split; [done|].
  split; [apply lookup_insert_eq | done].
Qed.

Lemma valid_file_gets_generated_id_witness :
  exists fs' g' ds',
    InPlace.anonymize_dicom_file Sample.workstation Ward.ids
      "ct/1.dcm" "ANON" Ward.shelf 0 = (true, fs', g')
    /\ fs' !! "ct/1.dcm" = Some (Dicom ds')
    /\ ds' !! "PatientID"
       = Some (InPlace.generate_anonymous_id Ward.ids "ANON" 0).1.
Proof.
  apply (valid_file_gets_generated_id Sample.workstation Ward.ids
           "ct/1.dcm" "ANON" Ward.shelf 0).
  - by vm_compute.
  - reflexivity.
  - reflexivity.
  - reflexivity.
Defined.

(** X14.  [modify_patientids] changes nothing but the listed files whose
    name ends with ".dcm" and their .backup siblings: every other path holds
    afterwards what it held before. *)
Theorem modify_patientids_footprint (sys : Old.system)
    (ids : InPlace.id_source (Old.sys_random sys)) (plat : InPlace.platform)
    (directory_path : string) (new_patientid : option string)
    (fs : gmap string content) (g : Old.rng (Old.sys_random sys))
    (listing : list (string * list string)) (q : string) :
  InPlace.os_walk plat directory_path = Some listing ->
  ~ InPlace.in_reach plat listing q ->
  (InPlace.modify_patientids sys ids plat directory_path new_patientid fs g).1.2
    !! q = fs !! q.
Proof.
  intros Hwalk Hout. unfold InPlace.modify_patientids. rewrite Hwalk.
  destruct (match new_patientid with
            | Some given => (given, g)
            | None => InPlace.generate_anonymous_id ids "DIR" g
            end) as [nv g1].
  by destruct (walk_loop_facts sys plat Old.DICOM_TAGS_TO_ANONYMIZE nv
                 listing (0, fs, g1)) as [_ ->].
Qed.

Lemma modify_patientids_footprint_witness :
  (InPlace.modify_patientids Sample.workstation Ward.ids Ward.posix "ct"
     (Some "ANON_7") Ward.shelf 0).1.2 !! "ct/notes.txt"
  = Ward.shelf !! "ct/notes.txt".
Proof.
  apply (modify_patientids_footprint Sample.workstation Ward.ids Ward.posix
           "ct" (Some "ANON_7") Ward.shelf 0
           [("ct", ["1.dcm"; "notes.txt"; "2.DCM"])] "ct/notes.txt").
  - reflexivity.
  - intros (root & files & file & Hin & Hf & He & Hq).
    apply list_elem_of_singleton in Hin as [= -> ->].
    repeat (apply elem_of_cons in Hf as [-> | Hf];
            [by (vm_compute in He; try discriminate;
                 destruct Hq as [Hq|Hq]; vm_compute in Hq; discriminate)|]).
    by apply elem_of_nil in Hf.
Defined.

(** X15.  The number [modify_patientids] returns never exceeds the number of
    listed names that end with ".dcm". *)
Theorem modify_patientids_count (sys : Old.system)
    (ids : InPlace.id_source (Old.sys_random sys)) (plat : InPlace.platform)
    (directory_path : string) (new_patientid : option string)
    (fs : gmap string content) (g : Old.rng (Old.sys_random sys))
    (listing : list (string * list string)) :
  InPlace.os_walk plat directory_path = Some listing ->
  (InPlace.modify_patientids sys ids plat directory_path new_patientid fs g).1.1
    <= InPlace.listed_dcm listing.
Proof.
  intros Hwalk. unfold InPlace.modify_patientids. rewrite Hwalk.
  destruct (match new_patientid with
            | Some given => (given, g)
            | None => InPlace.generate_anonymous_id ids "DIR" g
            end) as [nv g1].
  by destruct (walk_loop_facts sys plat Old.DICOM_TAGS_TO_ANONYMIZE nv
                 listing (0, fs, g1)) as [? _].
Qed.

Lemma modify_patientids_count_witness :
  (InPlace.modify_patientids Sample.workstation Ward.ids Ward.posix "ct"
     None Ward.shelf 0).1.1
  <= InPlace.listed_dcm [("ct", ["1.dcm"; "notes.txt"; "2.DCM"])].
Proof.
  apply (modify_patientids_count Sample.workstation Ward.ids Ward.posix
           "ct" None Ward.shelf 0 [("ct", ["1.dcm"; "notes.txt"; "2.DCM"])]).
  reflexivity.
Defined.

(** X16.  The extension test of [modify_patientids] is case-sensitive and
    asks for a dot: when no listed name ends with lower-case ".dcm", it
    returns 0 and leaves every file as it was, valid DICOM files under
    other names included. *)
Theorem modify_patientids_other_names (sys : Old.system)
    (ids : InPlace.id_source (Old.sys_random sys)) (plat : InPlace.platform)
    (directory_path : string) (new_patientid : option string)
    (fs : gmap string content) (g : Old.rng (Old.sys_random sys))
    (listing : list (string * list string)) :
  InPlace.os_walk plat directory_path = Some listing ->
  (forall root files file,
     (root, files) ∈ listing -> file ∈ files ->
     PyStr.endswith file ".dcm" = false) ->
  (InPlace.modify_patientids sys ids plat directory_path new_patientid fs g).1
  = (0, fs).
Proof.
  intros Hwalk Hnames. unfold InPlace.modify_patientids. rewrite Hwalk.
  destruct (match new_patientid with
            | Some given => (given, g)
            | None => InPlace.generate_anonymous_id ids "DIR" g
            end) as [nv g1].
  assert (forall st,
            foldl (fun st (x : string * list string) =>
                     foldl (InPlace.modify_listed sys plat
                              Old.DICOM_TAGS_TO_ANONYMIZE nv x.1) st x.2)
                  st listing = st) as ->; [|done].
  clear Hwalk. induction listing as [|[root files] listing IH]; intros st;
    [done|].
  rewrite foldl_step. simpl fst. simpl snd.
  assert (foldl (InPlace.modify_listed sys plat Old.DICOM_TAGS_TO_ANONYMIZE
                   nv root) st files = st) as ->.
  { assert (forall file, file ∈ files -> PyStr.endswith file ".dcm" = false)
      as Hfiles by (intros file Hf; eapply Hnames; [by left | done]).
    clear IH Hnames. induction files as [|file files IHf]; [done|].
    rewrite foldl_step.
    replace (InPlace.modify_listed sys plat Old.DICOM_TAGS_TO_ANONYMIZE nv
               root st file) with st.
    - apply IHf. intros f Hf. apply Hfiles. by right.
    - unfold InPlace.modify_listed. destruct st as [[n fs0] g0].
      by rewrite (Hfiles file) by left. }
  apply IH. intros r fl f Hin Hf. apply (Hnames r fl f); [by right | done].
Qed.

Lemma modify_patientids_other_names_witness :
  (InPlace.modify_patientids Sample.workstation Ward.ids Ward.upper_case "ct"
     None (<["ct/2.DCM" := Dicom Ward.examined]> Ward.shelf) 0).1
  = (0, <["ct/2.DCM" := Dicom Ward.examined]> Ward.shelf).
Proof.
  apply (modify_patientids_other_names Sample.workstation Ward.ids
           Ward.upper_case "ct" None
           (<["ct/2.DCM" := Dicom Ward.examined]> Ward.shelf) 0
           [("ct", ["2.DCM"; "notes.txt"])]).
  - reflexivity.
  - intros root files file Hin Hf.
    apply list_elem_of_singleton in Hin as [= -> ->].
    repeat (apply elem_of_cons in Hf as [-> | Hf]; [by vm_compute|]).
    by apply elem_of_nil in Hf.
Defined.
